(** * Reservation resolver: a shallow embedding of
      [reservation_resolver/main.py] and the properties of its resolution loop.

    Calendar dates are represented by their proleptic Gregorian ordinal
    ([datetime.date.toordinal]); the availability [collections.Counter] is a
    finite map from dates to integers whose missing keys read as [0]; Python
    lists are lists; in-place mutation is explicit state passing, and an
    exception is returned together with the state the mutated object is left
    in. *)

From Equations Require Import Equations.
From stdpp Require Import gmap strings list fin_maps.

Local Open Scope Z_scope.

(** ** Calendar dates *)

(** [datetime.date] values, as ordinals.  Python compares dates by
    (year, month, day), which is the order of the ordinals, and adds a
    [timedelta] through the ordinal. *)
Module PyDate.

Definition is_leap (year : Z) : bool :=
  (year mod 4 =? 0) && (negb (year mod 100 =? 0) || (year mod 400 =? 0)).

Definition days_before_year (year : Z) : Z :=
  let y := year - 1 in y * 365 + y / 4 - y / 100 + y / 400.

Definition DAYS_IN_MONTH : list Z :=
  [31; 28; 31; 30; 31; 30; 31; 31; 30; 31; 30; 31].

Definition days_before_month (year month : Z) : Z :=
  foldr Z.add 0 (take (Z.to_nat (month - 1)) DAYS_IN_MONTH)
  + (if (2 <? month) && is_leap year then 1 else 0).

Definition ymd2ord (year month day : Z) : Z :=
  days_before_year year + days_before_month year month + day.

End PyDate.

(** [datetime.date(year, month, day)]. *)
Definition date (year month day : Z) : Z := PyDate.ymd2ord year month day.

(** ** Data model *)

(** [Reservation = NamedTuple("Reservation", [start, end, name])].  Python's
    [==] on named tuples is field-wise, i.e. Leibniz equality here. *)
Record Reservation : Type := mkReservation {
  start : Z;
  end_ : Z;
  name : string;
}.

#[global] Instance Reservation_eq_dec : EqDecision Reservation.
Proof. solve_decision. Defined.

Definition ROOMS : Z := 2.

(** Exceptions the modelled code can raise. *)
Inductive exn : Type :=
  | ValueError_empty_sequence            (* min() of an empty sequence *)
  | IndexError_choice                    (* random choice out of range / from an empty list *)
  | ValueError_not_in_list               (* list.remove(x): x not in list *)
  | ValueError_below_zero (reservation : Reservation) (day : Z).
                                         (* "Reservation ... goes <0 at date ..." *)

Inductive completion (A : Type) : Type :=
  | Normal (a : A)
  | Raised (e : exn).
Arguments Normal {A} a.
Arguments Raised {A} e.

(** The INFO records of [_LOGGER] that name a reservation. *)
Inductive LogRecord : Type :=
  | LogPicked (reservation : Reservation)
  | LogRemoving (reservation : Reservation).

(** [collections.Counter]: [c[k]] on a missing key is [0] and inserts
    nothing. *)
Definition getitem (c : gmap Z Z) (key : Z) : Z := default 0 (c !! key).

(** [list.remove(x)]: drops the first element equal to [x]; [None] stands for
    the [ValueError] raised when there is none. *)
Fixpoint list_remove {A : Type} `{EqDecision A} (x : A) (l : list A) : option (list A) :=
  match l with
  | [] => None
  | y :: l' => if decide (y = x) then Some l' else cons y <$> list_remove x l'
  end.

(** ** [date_range] (with the default step of one day) *)

Equations date_range (start end_ : Z) : list Z by wf (Z.to_nat (end_ - start)) lt :=
  date_range current end_ with decide (current < end_) := {
    | left _ => current :: date_range (current + 1) end_
    | right _ => [] }.
Next Obligation. lia. Qed.

(** ** [create_availability] *)

Definition create_availability (reservations : list Reservation) : completion (gmap Z Z) :=
  match reservations with
  | [] => Raised ValueError_empty_sequence
  | x :: xs =>
      let min_date := foldl Z.min (start x) (start <$> xs) in
      let max_date := foldl Z.max (end_ x) (end_ <$> xs) in
      Normal (foldl (fun availability date => <[date := ROOMS]> availability)
                    ∅ (date_range min_date max_date))
  end.

(** ** [pick_reservation] *)

(** [i] is the index drawn by [random.SystemRandom().choice], that is, the
    value of [_randbelow(len(reservations))]. *)
Definition pick_reservation (i : nat) (reservations : list Reservation)
    (log : list LogRecord)
  : list Reservation * list LogRecord * completion Reservation :=
  match reservations !! i with
  | None => (reservations, log, Raised IndexError_choice)
  | Some picked =>
      match list_remove picked reservations with
      | None => (reservations, log, Raised ValueError_not_in_list)
      | Some reservations' => (reservations', log ++ [LogPicked picked], Normal picked)
      end
  end.

(** ** [remove_conflicting] *)

(** [any(availability[date] == 0 for date in date_range(start, end))] *)
Definition conflicting (reservation : Reservation) (availability : gmap Z Z) : bool :=
  existsb (fun date => getitem availability date =? 0)
          (date_range (start reservation) (end_ reservation)).

(** The [for] loop over the snapshot [all_reservations]; [reservations] is the
    list being mutated. *)
Fixpoint remove_conflicting_loop (all_reservations : list Reservation)
    (availability : gmap Z Z) (reservations : list Reservation) (log : list LogRecord)
  : list Reservation * list LogRecord * completion unit :=
  match all_reservations with
  | [] => (reservations, log, Normal ())
  | reservation :: rest =>
      if conflicting reservation availability then
        match list_remove reservation reservations with
        | None => (reservations, log, Raised ValueError_not_in_list)
        | Some reservations' =>
            remove_conflicting_loop rest availability reservations'
                                    (log ++ [LogRemoving reservation])
        end
      else remove_conflicting_loop rest availability reservations log
  end.

Definition remove_conflicting (reservations : list Reservation)
    (availability : gmap Z Z) (log : list LogRecord)
  : list Reservation * list LogRecord * completion unit :=
  remove_conflicting_loop reservations availability reservations log.

(** ** [update_availability] *)

(** The [for] loop over the days of the reservation.  The counter is
    returned in both cases: it is the state the shared object is in when the
    function returns or raises. *)
Fixpoint update_availability_loop (reservation : Reservation) (days : list Z)
    (availability : gmap Z Z) : gmap Z Z * completion unit :=
  match days with
  | [] => (availability, Normal ())
  | day :: rest =>
      let availability' := <[day := getitem availability day - 1]> availability in
      if getitem availability' day <? 0
      then (availability', Raised (ValueError_below_zero reservation day))
      else update_availability_loop reservation rest availability'
  end.

Definition update_availability (reservation : Reservation) (availability : gmap Z Z)
  : gmap Z Z * completion unit :=
  update_availability_loop reservation
    (date_range (start reservation) (end_ reservation)) availability.

(** ** The resolution loop of [__main__] *)

Record World : Type := mkWorld {
  requests : list Reservation;
  availablility : gmap Z Z;
  chosen : list Reservation;
  log : list LogRecord;
}.

Inductive status : Type :=
  | Finished                 (* the [while] loop exited *)
  | Aborted (e : exn)        (* an exception propagated *)
  | OutOfFuel.               (* the model ran out of iterations *)

Section Resolver.

(** The random source: [randbelow k n] is the index drawn by the [k]-th
    call of [choice] on a list of length [n]. *)
Variable randbelow : nat → nat → nat.

(** One pass through the body of the [while] loop, [k] passes having been
    made before. *)
Definition iteration (k : nat) (w : World) : World * completion unit :=
  let '(requests1, log1, r) :=
    pick_reservation (randbelow k (length (requests w))) (requests w) (log w) in
  match r with
  | Raised e => (mkWorld requests1 (availablility w) (chosen w) log1, Raised e)
  | Normal picked =>
      let '(availability2, r) := update_availability picked (availablility w) in
      match r with
      | Raised e => (mkWorld requests1 availability2 (chosen w) log1, Raised e)
      | Normal _ =>
          let '(requests3, log3, r) := remove_conflicting requests1 availability2 log1 in
          match r with
          | Raised e => (mkWorld requests3 availability2 (chosen w) log3, Raised e)
          | Normal _ =>
              (mkWorld requests3 availability2 (chosen w ++ [picked]) log3, Normal ())
          end
      end
  end.

Fixpoint resolve_loop (fuel k : nat) (w : World) : World * status :=
  match requests w with
  | [] => (w, Finished)
  | _ :: _ =>
      match fuel with
      | O => (w, OutOfFuel)
      | S fuel' =>
          match iteration k w with
          | (w', Raised e) => (w', Aborted e)
          | (w', Normal _) => resolve_loop fuel' (S k) w'
          end
      end
  end.

(** [__main__] on the list read from the requests file; [Raised] when
    [create_availability] raised before there was any state. *)
Definition main (requests : list Reservation) : completion (World * status) :=
  match create_availability requests with
  | Raised e => Raised e
  | Normal availablility =>
      Normal (resolve_loop (length requests) 0%nat
                           (mkWorld requests availablility [] []))
  end.

End Resolver.

(** Reservations the log reports as removed by [remove_conflicting]. *)
Definition pruned (log : list LogRecord) : list Reservation :=
  omap (fun rec => match rec with LogRemoving r => Some r | LogPicked _ => None end) log.

(** The two bounds computed by [create_availability]. *)
Definition min_start (x : Reservation) (xs : list Reservation) : Z :=
  foldl Z.min (start x) (start <$> xs).
Definition max_end (x : Reservation) (xs : list Reservation) : Z :=
  foldl Z.max (end_ x) (end_ <$> xs).

(** ** Invariant of the resolution loop *)

Definition capacity_ok (availability : gmap Z Z) : Prop :=
  ∀ d, 0 ≤ getitem availability d ≤ ROOMS.

(** No pending reservation touches a day without a free room. *)
Definition pool_satisfiable (availability : gmap Z Z) (pool : list Reservation) : Prop :=
  ∀ r, r ∈ pool → conflicting r availability = false.

Record resolver_inv (initial : list Reservation) (domain : gset Z) (w : World) : Prop :=
  mk_resolver_inv {
    inv_capacity : capacity_ok (availablility w);
    inv_pool : pool_satisfiable (availablility w) (requests w);
    inv_dom : dom (availablility w) = domain;
    inv_account : chosen w ++ pruned (log w) ++ requests w ≡ₚ initial;
  }.

(** The requests of the end-to-end scenario. *)
Definition Alice : Reservation := mkReservation (date 2024 1 1) (date 2024 1 3) "Alice".
Definition Bob : Reservation := mkReservation (date 2024 1 2) (date 2024 1 4) "Bob".
Definition Carol : Reservation := mkReservation (date 2024 1 1) (date 2024 1 2) "Carol".

(** A random source that always draws index 0: [choice] takes the head of the
    list. *)
Definition always_first : nat → nat → nat := fun _ _ => 0%nat.

(** ** Occupancy and the overflow check of [date.__add__] *)

(** Day [d] lies in the half-open span of [r]. *)
Definition covers (d : Z) (r : Reservation) : Prop := start r ≤ d < end_ r.

#[global] Instance covers_dec (d : Z) (r : Reservation) : Decision (covers d r).
Proof. unfold covers. apply _. Defined.

(** Number of reservations of [rs] whose span contains [d]. *)
Definition occupancy (d : Z) (rs : list Reservation) : nat :=
  length (filter (covers d) rs).

(** Reservations the log reports as picked by [pick_reservation]. *)
Definition picked_of (log : list LogRecord) : list Reservation :=
  omap (fun rec => match rec with LogPicked r => Some r | LogRemoving _ => None end) log.

(** [datetime.date.max.toordinal()], the ordinal of 9999-12-31. *)
Definition MAXORDINAL : Z := 3652059.

(** How a generator stops: its body returned, or [current += step] raised
    [OverflowError] ([date.__add__] accepts a result [o] only when
    [0 < o <= _MAXORDINAL]). *)
Inductive generator_end : Type :=
  | Exhausted
  | Overflowed.

(** [date_range] with the range check of [date.__add__] written out: the
    dates yielded, and how the generator stopped. *)
Equations date_range_checked (start end_ : Z) : list Z * generator_end
    by wf (Z.to_nat (end_ - start)) lt :=
  date_range_checked current end_ with decide (current < end_) := {
    | right _ => ([], Exhausted)
    | left _ with decide (0 < current + 1 ≤ MAXORDINAL) := {
        | left _ =>
            let rest := date_range_checked (current + 1) end_ in
            (current :: rest.1, rest.2)
        | right _ => ([current], Overflowed) } }.
Next Obligation. lia. Qed.

(** Three requests for the same single night, one more than there are
    rooms. *)
Definition Xavier : Reservation := mkReservation (date 2024 1 1) (date 2024 1 2) "Xavier".
Definition Yara : Reservation := mkReservation (date 2024 1 1) (date 2024 1 2) "Yara".
Definition Zoe : Reservation := mkReservation (date 2024 1 1) (date 2024 1 2) "Zoe".

(** ** Further invariants of the resolution loop *)

(** The counter records the grants: a count is what it was at the start
    minus the number of granted reservations covering the day. *)
Definition counts_grants (av0 : gmap Z Z) (w : World) : Prop :=
  ∀ d, getitem (availablility w) d = getitem av0 d - Z.of_nat (occupancy d (chosen w)).

(** Every reservation logged as removed has, in the current counter, a day
    without a free room. *)
Definition pruned_blocked (w : World) : Prop :=
  ∀ r, r ∈ pruned (log w) → conflicting r (availablility w) = true.

(** * Properties *)

(** ** [date_range] *)

Lemma date_range_step (current end_ : Z) :
  date_range current end_ =
  if decide (current < end_) then current :: date_range (current + 1) end_ else [].
Proof. rewrite date_range_equation_1. by destruct (decide (current < end_)). Qed.

Lemma date_range_empty (start end_ : Z) : end_ ≤ start → date_range start end_ = [].
Proof. intros H. rewrite date_range_step. case_decide; [lia | done]. Qed.

Lemma date_range_seq (n : nat) (start end_ : Z) :
  Z.to_nat (end_ - start) = n →
  date_range start end_ = (fun i : nat => start + Z.of_nat i) <$> seq 0 n.
Proof.
  revert start. induction n as [|n IH]; intros start Hn.
  - apply date_range_empty. lia.
  - rewrite date_range_step. case_decide; [|lia].
    cbn [seq fmap list_fmap]. f_equal; [lia|].
    rewrite (IH (start + 1)) by lia.
    rewrite <- (fmap_S_seq 0), <- list_fmap_compose.
    apply list_fmap_ext. intros _ i _. simpl. lia.
Qed.

Lemma elem_of_date_range (start end_ d : Z) :
  d ∈ date_range start end_ ↔ start ≤ d < end_.
Proof.
  rewrite (date_range_seq _ start end_ eq_refl), list_elem_of_fmap.
  split.
  - intros (i & -> & Hi). apply elem_of_seq in Hi. lia.
  - intros Hd. exists (Z.to_nat (d - start)). split; [lia|].
    apply elem_of_seq. lia.
Qed.

Lemma NoDup_date_range (start end_ : Z) : NoDup (date_range start end_).
Proof.
  rewrite (date_range_seq _ start end_ eq_refl).
  apply NoDup_fmap_2; [|apply NoDup_seq].
  intros i j Hij. lia.
Qed.

(** C3: [date_range start end] is exactly the consecutive dates
    [start, start+1, ...] up to but excluding [end]; it is empty when
    [start >= end]; and from 2024-01-01 to 2024-01-04 it is the three days
    2024-01-01, 2024-01-02, 2024-01-03. *)
Theorem date_range_half_open (start end_ : Z) :
  date_range start end_
    = (fun i : nat => start + Z.of_nat i) <$> seq 0 (Z.to_nat (end_ - start))
  ∧ (∀ d, d ∈ date_range start end_ ↔ start ≤ d < end_)
  ∧ NoDup (date_range start end_)
  ∧ (end_ ≤ start → date_range start end_ = [])
  ∧ date_range (date 2024 1 1) (date 2024 1 4)
    = [date 2024 1 1; date 2024 1 2; date 2024 1 3].
Proof.
  split; [by apply date_range_seq|].
  split; [intros d; apply elem_of_date_range|].
  split; [apply NoDup_date_range|].
  split; [apply date_range_empty|].
  by vm_compute.
Qed.

(** ** [list.remove] *)

Section ListRemove.
Context {A : Type} `{EqDecision A}.
Implicit Types (x : A) (l : list A).

Lemma list_remove_middle x l1 l2 :
  x ∉ l1 → list_remove x (l1 ++ x :: l2) = Some (l1 ++ l2).
Proof.
  induction l1 as [|y l1 IH]; intros Hx; simpl.
  - by rewrite decide_True.
  - apply not_elem_of_cons in Hx as [Hxy Hx].
    rewrite decide_False by done. by rewrite IH.
Qed.

Lemma list_remove_elem_of x l :
  x ∈ l → ∃ l1 l2, l = l1 ++ x :: l2 ∧ list_remove x l = Some (l1 ++ l2).
Proof.
  intros Hx. apply list_elem_of_split_l in Hx as (l1 & l2 & -> & Hx).
  exists l1, l2. split; [done|]. by apply list_remove_middle.
Qed.

Lemma list_remove_None x l : list_remove x l = None ↔ x ∉ l.
Proof.
  split.
  - intros Hn Hx. apply list_remove_elem_of in Hx as (? & ? & _ & Hs). congruence.
  - induction l as [|y l IH]; intros Hx; [done|]. simpl.
    apply not_elem_of_cons in Hx as [Hxy Hx].
    rewrite decide_False by done. by rewrite IH.
Qed.

Lemma list_remove_Permutation x l l' : list_remove x l = Some l' → l ≡ₚ x :: l'.
Proof.
  intros Hr. destruct (decide (x ∈ l)) as [Hx|Hx].
  - apply list_remove_elem_of in Hx as (l1 & l2 & -> & Hs).
    rewrite Hs in Hr. injection Hr as <-. by rewrite Permutation_middle.
  - apply list_remove_None in Hx. congruence.
Qed.

Lemma list_remove_length x l l' :
  list_remove x l = Some l' → length l = S (length l').
Proof. intros Hr. by rewrite (list_remove_Permutation _ _ _ Hr). Qed.

End ListRemove.

(** ** [remove_conflicting] *)

Lemma conflicting_true (r : Reservation) (av : gmap Z Z) :
  conflicting r av = true ↔ ∃ d, start r ≤ d < end_ r ∧ getitem av d = 0.
Proof.
  unfold conflicting. rewrite existsb_exists. split.
  - intros (d & Hd & H0). exists d. split; [|lia].
    by apply elem_of_date_range, list_elem_of_In.
  - intros (d & Hd & H0). exists d. split; [|lia].
    by apply list_elem_of_In, elem_of_date_range.
Qed.

Lemma conflicting_false (r : Reservation) (av : gmap Z Z) :
  conflicting r av = false ↔ ∀ d, start r ≤ d < end_ r → getitem av d ≠ 0.
Proof.
  rewrite <- not_true_iff_false, conflicting_true. split.
  - intros Hn d Hd H0. apply Hn. by exists d.
  - intros Hall (d & Hd & H0). by apply (Hall d).
Qed.

Section Prune.
Variable av : gmap Z Z.

Let keep (r : Reservation) : Prop := conflicting r av = false.
Let drop (r : Reservation) : Prop := ¬ conflicting r av = false.

Lemma filter_list_remove_drop (r : Reservation) (cur cur' : list Reservation) :
  conflicting r av = true → list_remove r cur = Some cur' →
  filter keep cur' = filter keep cur ∧ filter drop cur ≡ₚ r :: filter drop cur'.
Proof.
  intros Hbad Hr. assert (r ∈ cur) as Hin.
  { destruct (decide (r ∈ cur)) as [|Hn]; [done|].
    apply list_remove_None in Hn. congruence. }
  apply list_remove_elem_of in Hin as (l1 & l2 & -> & Hs).
  rewrite Hs in Hr. injection Hr as <-.
  rewrite !filter_app. split.
  - rewrite filter_cons_False; [done|]. unfold keep. congruence.
  - rewrite filter_cons_True; [|unfold drop; congruence].
    by rewrite Permutation_middle.
Qed.

(** The loop over any snapshot whose conflicting reservations are all
    (with multiplicity) in the current list. *)
Lemma remove_conflicting_loop_inv (snapshot cur : list Reservation) (lg : list LogRecord) :
  filter drop snapshot ⊆+ filter drop cur →
  ∃ cur',
    remove_conflicting_loop snapshot av cur lg
      = (cur', lg ++ (LogRemoving <$> filter drop snapshot), Normal ())
    ∧ filter keep cur' = filter keep cur
    ∧ filter drop cur ≡ₚ filter drop snapshot ++ filter drop cur'.
Proof.
  revert cur lg. induction snapshot as [|r rest IH]; intros cur lg Hsub.
  - exists cur. simpl. by rewrite app_nil_r.
  - simpl. destruct (conflicting r av) eqn:Hc.
    + rewrite filter_cons_True in Hsub |- * by (unfold drop; congruence).
      assert (r ∈ cur) as Hin.
      { eapply (list_elem_of_filter drop), elem_of_submseteq; [|exact Hsub].
        apply list_elem_of_here. }
      apply list_remove_elem_of in Hin as (l1 & l2 & Hcur & Hs). rewrite Hs.
      destruct (filter_list_remove_drop r cur (l1 ++ l2) Hc) as [Hk Hd].
      { exact Hs. }
      rewrite Hd in Hsub. apply (submseteq_app_inv_l _ _ [r]) in Hsub.
      destruct (IH (l1 ++ l2) (lg ++ [LogRemoving r]) Hsub) as (cur' & He & Hk' & Hd').
      exists cur'. rewrite He. split; [|split].
      * by rewrite <- app_assoc.
      * congruence.
      * rewrite Hd. simpl. by rewrite Hd'.
    + rewrite filter_cons_False in Hsub |- * by (unfold drop; tauto).
      apply IH, Hsub.
Qed.

Lemma remove_conflicting_loop_filter (snapshot pool : list Reservation) (lg : list LogRecord) :
  snapshot ≡ₚ pool →
  remove_conflicting_loop snapshot av pool lg
    = (filter keep pool, lg ++ (LogRemoving <$> filter drop snapshot), Normal ()).
Proof.
  intros Hp.
  destruct (remove_conflicting_loop_inv snapshot pool lg) as (cur' & He & Hk & Hd).
  { by rewrite Hp. }
  rewrite He. do 2 f_equal. rewrite <- Hk.
  assert (filter drop cur' = []) as Hnil.
  { apply Permutation_nil_r. apply (Permutation_app_inv_l (filter drop snapshot)).
    rewrite app_nil_r, <- Hd. by rewrite Hp. }
  clear -Hnil. induction cur' as [|r l IH]; [done|].
  destruct (decide (keep r)) as [Hr|Hr].
  - rewrite filter_cons_True in * by done.
    rewrite filter_cons_False in Hnil by (unfold drop; tauto).
    f_equal. by apply IH.
  - by rewrite filter_cons_True in Hnil.
Qed.
End Prune.

Lemma remove_conflicting_filter
    (pool : list Reservation) (av : gmap Z Z) (lg : list LogRecord) :
  remove_conflicting pool av lg
    = (filter (λ r, conflicting r av = false) pool,
       lg ++ (LogRemoving <$> filter (λ r, ¬ conflicting r av = false) pool),
       Normal ()).
Proof. by apply remove_conflicting_loop_filter. Qed.

(** C2: [remove_conflicting] never raises and leaves in the pool exactly the
    reservations, in their order and with their multiplicity, no day of whose
    half-open span has count 0; the same pool results whatever the order in
    which the snapshot is walked (the order in which removals are applied),
    and permuting the pool permutes the result. *)
Theorem remove_conflicting_pure_filter
    (pool : list Reservation) (av : gmap Z Z) (lg : list LogRecord) :
  remove_conflicting pool av lg
    = (filter (λ r, conflicting r av = false) pool,
       lg ++ (LogRemoving <$> filter (λ r, ¬ conflicting r av = false) pool),
       Normal ())
  ∧ (∀ r, r ∈ (remove_conflicting pool av lg).1.1
          ↔ r ∈ pool ∧ ∀ d, start r ≤ d < end_ r → getitem av d ≠ 0)
  ∧ (∀ snapshot, snapshot ≡ₚ pool →
       (remove_conflicting_loop snapshot av pool lg).1.1
         = (remove_conflicting pool av lg).1.1
       ∧ (remove_conflicting_loop snapshot av pool lg).2 = Normal ())
  ∧ (∀ pool', pool' ≡ₚ pool →
       (remove_conflicting pool' av lg).1.1 ≡ₚ (remove_conflicting pool av lg).1.1).
Proof.
  pose proof (λ p, remove_conflicting_filter p av lg) as Heq.
  split; [apply Heq|]. split; [|split].
  - intros r. rewrite Heq. simpl.
    rewrite list_elem_of_filter, conflicting_false. tauto.
  - intros snapshot Hp. rewrite Heq.
    by rewrite (remove_conflicting_loop_filter av snapshot pool lg Hp).
  - intros pool' Hp. rewrite !Heq. simpl. by rewrite Hp.
Qed.

(** C10: a date outside the domain of the counter reads as 0 without an
    error, so [remove_conflicting] returns normally and removes every
    reservation of the pool whose span contains such a date. *)
Theorem remove_conflicting_out_of_domain
    (pool : list Reservation) (av : gmap Z Z) (lg : list LogRecord)
    (r : Reservation) (d : Z) :
  r ∈ pool → start r ≤ d < end_ r → d ∉ dom av →
  getitem av d = 0
  ∧ conflicting r av = true
  ∧ (remove_conflicting pool av lg).2 = Normal ()
  ∧ (r ∉ (remove_conflicting pool av lg).1.1)
  ∧ LogRemoving r ∈ (remove_conflicting pool av lg).1.2.
Proof.
  intros Hin Hd Hdom.
  assert (getitem av d = 0) as H0.
  { unfold getitem. by rewrite (not_elem_of_dom_1 av d Hdom). }
  assert (conflicting r av = true) as Hc.
  { apply conflicting_true. by exists d. }
  rewrite remove_conflicting_filter. simpl. repeat split; try done.
  - rewrite list_elem_of_filter. intros [Hk _]. congruence.
  - apply elem_of_app. right. apply list_elem_of_fmap_2.
    apply list_elem_of_filter. split; [congruence | done].
Qed.

Lemma remove_conflicting_out_of_domain_witness :
  let r := mkReservation 5 7 "guest" in
  getitem ∅ 6 = 0
  ∧ conflicting r ∅ = true
  ∧ (remove_conflicting [r] ∅ []).2 = Normal ()
  ∧ (r ∉ (remove_conflicting [r] ∅ []).1.1)
  ∧ LogRemoving r ∈ (remove_conflicting [r] ∅ []).1.2.
Proof.
  intros r. apply (remove_conflicting_out_of_domain [r] ∅ [] r 6).
  - apply list_elem_of_here.
  - simpl. lia.
  - rewrite dom_empty_L. apply not_elem_of_empty.
Defined.

(** ** [update_availability] *)

Lemma getitem_insert_eq (av : gmap Z Z) (d v : Z) : getitem (<[d := v]> av) d = v.
Proof. unfold getitem. by rewrite lookup_insert_eq. Qed.

Lemma getitem_insert_ne (av : gmap Z Z) (d d' v : Z) :
  d ≠ d' → getitem (<[d := v]> av) d' = getitem av d'.
Proof. intros Hne. unfold getitem. by rewrite lookup_insert_ne. Qed.

Lemma getitem_lookup_eq (av av' : gmap Z Z) (d : Z) :
  av' !! d = av !! d → getitem av' d = getitem av d.
Proof. unfold getitem. by intros ->. Qed.

(** The loop, when it raises: it stops at the first day [d] of the span whose
    count is not positive. *)
Lemma update_availability_loop_Raised (n : nat) (r : Reservation) (s e : Z)
    (av av' : gmap Z Z) (ex : exn) :
  Z.to_nat (e - s) = n →
  update_availability_loop r (date_range s e) av = (av', Raised ex) →
  ∃ d, s ≤ d < e
    ∧ ex = ValueError_below_zero r d
    ∧ getitem av d ≤ 0
    ∧ getitem av' d = getitem av d - 1
    ∧ (∀ d', s ≤ d' < d → 1 ≤ getitem av d' ∧ getitem av' d' = getitem av d' - 1)
    ∧ (∀ d', ¬ (s ≤ d' ≤ d) → av' !! d' = av !! d').
Proof.
  revert s av. induction n as [|n IH]; intros s av Hn; rewrite date_range_step;
    (case_decide; [|done]); [lia|].
  cbn [update_availability_loop]. rewrite getitem_insert_eq.
  destruct (getitem av s - 1 <? 0) eqn:Hlt.
  - intros [= <- <-]. exists s. rewrite getitem_insert_eq.
    repeat split; try lia.
    intros d' Hd'. apply lookup_insert_ne. lia.
  - intros Hloop. apply IH in Hloop as (d & Hd & -> & Hle & Hd' & Hpre & Hframe); [|lia].
    rewrite getitem_insert_ne in Hle, Hd' by lia.
    exists d. repeat split; try lia.
    + destruct (decide (d' = s)) as [->|Hne]; [lia|].
      specialize (Hpre d'). rewrite getitem_insert_ne in Hpre by done. lia.
    + destruct (decide (d' = s)) as [->|Hne].
      * rewrite (getitem_lookup_eq _ _ _ (Hframe s ltac:(lia))).
        apply getitem_insert_eq.
      * specialize (Hpre d'). rewrite getitem_insert_ne in Hpre by done. lia.
    + intros d' Hd''. rewrite Hframe by lia. apply lookup_insert_ne. lia.
Qed.

(** The loop, when it returns: every day of the span had a positive count
    and lost exactly one; nothing else changed. *)
Lemma update_availability_loop_Normal (n : nat) (r : Reservation) (s e : Z)
    (av av' : gmap Z Z) :
  Z.to_nat (e - s) = n →
  update_availability_loop r (date_range s e) av = (av', Normal ()) →
  (∀ d, s ≤ d < e → 1 ≤ getitem av d ∧ getitem av' d = getitem av d - 1)
  ∧ (∀ d, ¬ (s ≤ d < e) → av' !! d = av !! d)
  ∧ (∀ d, s ≤ d < e → d ∈ dom av')
  ∧ dom av ⊆ dom av'.
Proof.
  revert s av. induction n as [|n IH]; intros s av Hn; rewrite date_range_step;
    case_decide; try (exfalso; lia).
  - intros [= <-]. repeat split; try done; lia.
  - cbn [update_availability_loop]. rewrite getitem_insert_eq.
    destruct (getitem av s - 1 <? 0) eqn:Hlt; [done|].
    intros Hloop. apply IH in Hloop as (Hin & Hframe & Hdom & Hsub); [|lia].
    split; [|split; [|split]].
    + intros d Hd. destruct (decide (d = s)) as [->|Hne].
      * rewrite (getitem_lookup_eq _ _ _ (Hframe s ltac:(lia))).
        rewrite getitem_insert_eq. lia.
      * specialize (Hin d). rewrite getitem_insert_ne in Hin by done. apply Hin. lia.
    + intros d Hd. rewrite Hframe by lia. apply lookup_insert_ne. lia.
    + intros d Hd. destruct (decide (d = s)) as [->|Hne].
      * apply Hsub. rewrite dom_insert_L. apply elem_of_union_l. by apply elem_of_singleton.
      * apply Hdom. lia.
    + etrans; [|exact Hsub]. rewrite dom_insert_L. apply union_subseteq_r.
Qed.

Lemma update_availability_Raised (r : Reservation) (av av' : gmap Z Z) (ex : exn) :
  update_availability r av = (av', Raised ex) →
  ∃ d, start r ≤ d < end_ r
    ∧ ex = ValueError_below_zero r d
    ∧ getitem av d ≤ 0
    ∧ getitem av' d = getitem av d - 1
    ∧ (∀ d', start r ≤ d' < d → 1 ≤ getitem av d' ∧ getitem av' d' = getitem av d' - 1)
    ∧ (∀ d', ¬ (start r ≤ d' ≤ d) → av' !! d' = av !! d').
Proof. by apply update_availability_loop_Raised with (n := Z.to_nat (end_ r - start r)). Qed.

Lemma update_availability_Normal (r : Reservation) (av av' : gmap Z Z) :
  update_availability r av = (av', Normal ()) →
  (∀ d, start r ≤ d < end_ r → 1 ≤ getitem av d ∧ getitem av' d = getitem av d - 1)
  ∧ (∀ d, ¬ (start r ≤ d < end_ r) → av' !! d = av !! d)
  ∧ (∀ d, start r ≤ d < end_ r → d ∈ dom av')
  ∧ dom av ⊆ dom av'.
Proof. by apply update_availability_loop_Normal with (n := Z.to_nat (end_ r - start r)). Qed.

(** C4: [update_availability] raises exactly when some day of the span has a
    count that the decrement takes below 0, which for a counter without
    negative counts on the span means a count of 0; the exception names such
    a day; and no count is clamped: on return every day of the span holds
    its former count minus one, and on a raise the named day holds its former
    count minus one, a negative number. *)
Theorem update_availability_raises_iff (r : Reservation) (av : gmap Z Z) :
  ((∃ ex, (update_availability r av).2 = Raised ex)
     ↔ ∃ d, start r ≤ d < end_ r ∧ getitem av d - 1 < 0)
  ∧ ((∀ d, start r ≤ d < end_ r → 0 ≤ getitem av d) →
     ((∃ ex, (update_availability r av).2 = Raised ex)
        ↔ ∃ d, start r ≤ d < end_ r ∧ getitem av d = 0))
  ∧ (∀ ex, (update_availability r av).2 = Raised ex →
       ∃ d, ex = ValueError_below_zero r d ∧ start r ≤ d < end_ r
          ∧ getitem (update_availability r av).1 d = getitem av d - 1
          ∧ getitem (update_availability r av).1 d < 0)
  ∧ ((update_availability r av).2 = Normal () →
       ∀ d, start r ≤ d < end_ r →
          getitem (update_availability r av).1 d = getitem av d - 1
          ∧ 0 ≤ getitem (update_availability r av).1 d).
Proof.
  assert ((∃ ex, (update_availability r av).2 = Raised ex)
     ↔ ∃ d, start r ≤ d < end_ r ∧ getitem av d - 1 < 0) as Hiff.
  { destruct (update_availability r av) as [av' [[]|ex]] eqn:Hu; simpl.
    - apply update_availability_Normal in Hu as (Hin & _). split.
      + by intros [ex ?].
      + intros (d & Hd & Hlt). apply Hin in Hd. lia.
    - apply update_availability_Raised in Hu as (d & Hd & _ & Hle & _). split.
      + intros _. exists d. split; [done | lia].
      + intros _. by exists ex. }
  split; [exact Hiff|]. split; [|split].
  - intros Hnn. rewrite Hiff. split; intros (d & Hd & H0); exists d; split; try done.
    + specialize (Hnn d Hd). lia.
    + lia.
  - intros ex Hex. destruct (update_availability r av) as [av' c] eqn:Hu.
    simpl in *. subst c.
    apply update_availability_Raised in Hu as (d & Hd & -> & Hle & Hd' & _).
    exists d. repeat split; try done; lia.
  - intros Hn d Hd. destruct (update_availability r av) as [av' c] eqn:Hu.
    simpl in *. subst c.
    apply update_availability_Normal in Hu as (Hin & _).
    specialize (Hin d Hd). lia.
Qed.

(** C9: when [update_availability] raises at day [d], the counter it leaves
    behind is not the one it was given: every day of the span before [d] has
    lost one, [d] itself holds one less than before, which is -1 when its
    count was not negative already (so that the decrement is what takes it
    below 0), and the later days are untouched. *)
Theorem update_availability_not_atomic (r : Reservation) (av : gmap Z Z) (ex : exn) :
  (update_availability r av).2 = Raised ex →
  ∃ d, ex = ValueError_below_zero r d
    ∧ start r ≤ d < end_ r
    ∧ (∀ d', start r ≤ d' < d →
         getitem (update_availability r av).1 d' = getitem av d' - 1)
    ∧ getitem (update_availability r av).1 d = getitem av d - 1
    ∧ (0 ≤ getitem av d → getitem av d = 0 ∧ getitem (update_availability r av).1 d = -1)
    ∧ (∀ d', ¬ (start r ≤ d' ≤ d) →
         (update_availability r av).1 !! d' = av !! d')
    ∧ (update_availability r av).1 ≠ av.
Proof.
  intros Hex. destruct (update_availability r av) as [av' c] eqn:Hu.
  simpl in *. subst c.
  apply update_availability_Raised in Hu as (d & Hd & -> & Hle & Hd' & Hpre & Hframe).
  exists d. repeat split; try done; try lia.
  - intros d' Hd''. by apply Hpre.
  - intros ->. lia.
Qed.

Lemma update_availability_not_atomic_witness :
  let r := mkReservation (date 2024 1 1) (date 2024 1 4) "Alice" in
  let av : gmap Z Z :=
    <[date 2024 1 1 := 1]> (<[date 2024 1 2 := 0]> (<[date 2024 1 3 := 2]> ∅)) in
  ∃ d, ValueError_below_zero r (date 2024 1 2) = ValueError_below_zero r d
    ∧ start r ≤ d < end_ r
    ∧ (∀ d', start r ≤ d' < d →
         getitem (update_availability r av).1 d' = getitem av d' - 1)
    ∧ getitem (update_availability r av).1 d = getitem av d - 1
    ∧ (0 ≤ getitem av d → getitem av d = 0 ∧ getitem (update_availability r av).1 d = -1)
    ∧ (∀ d', ¬ (start r ≤ d' ≤ d) →
         (update_availability r av).1 !! d' = av !! d')
    ∧ (update_availability r av).1 ≠ av.
Proof.
  intros r av. apply (update_availability_not_atomic r av). by vm_compute.
Defined.

(** The scenario of the witness, evaluated: 01 goes from 1 to 0, 02 is left
    at -1, 03 keeps its 2. *)
Example update_availability_partial :
  let r := mkReservation (date 2024 1 1) (date 2024 1 4) "Alice" in
  let av : gmap Z Z :=
    <[date 2024 1 1 := 1]> (<[date 2024 1 2 := 0]> (<[date 2024 1 3 := 2]> ∅)) in
  (update_availability r av).2 = Raised (ValueError_below_zero r (date 2024 1 2))
  ∧ getitem (update_availability r av).1 (date 2024 1 1) = 0
  ∧ getitem (update_availability r av).1 (date 2024 1 2) = -1
  ∧ getitem (update_availability r av).1 (date 2024 1 3) = 2.
Proof. by vm_compute. Qed.

(** ** [create_availability] *)

Lemma foldl_min_spec (l : list Z) (a : Z) :
  (foldl Z.min a l = a ∨ foldl Z.min a l ∈ l)
  ∧ foldl Z.min a l ≤ a
  ∧ ∀ x, x ∈ l → foldl Z.min a l ≤ x.
Proof.
  revert a. induction l as [|y l IH]; intros a; simpl.
  - split; [by left|]. split; [lia|]. intros x Hx. by apply elem_of_nil in Hx.
  - destruct (IH (Z.min a y)) as (Hm & Hle & Hall). split; [|split].
    + destruct Hm as [Hm|Hm].
      * rewrite Hm. destruct (Z.min_spec a y) as [[_ ->]|[_ ->]];
          [by left | right; apply list_elem_of_here].
      * right. by apply list_elem_of_further.
    + lia.
    + intros x [->|Hx]%elem_of_cons; [lia | by apply Hall].
Qed.

Lemma foldl_max_spec (l : list Z) (a : Z) :
  (foldl Z.max a l = a ∨ foldl Z.max a l ∈ l)
  ∧ a ≤ foldl Z.max a l
  ∧ ∀ x, x ∈ l → x ≤ foldl Z.max a l.
Proof.
  revert a. induction l as [|y l IH]; intros a; simpl.
  - split; [by left|]. split; [lia|]. intros x Hx. by apply elem_of_nil in Hx.
  - destruct (IH (Z.max a y)) as (Hm & Hle & Hall). split; [|split].
    + destruct Hm as [Hm|Hm].
      * rewrite Hm. destruct (Z.max_spec a y) as [[_ ->]|[_ ->]];
          [right; apply list_elem_of_here | by left].
      * right. by apply list_elem_of_further.
    + lia.
    + intros x [->|Hx]%elem_of_cons; [lia | by apply Hall].
Qed.

Lemma lookup_foldl_insert (days : list Z) (v : Z) (av : gmap Z Z) (d : Z) :
  foldl (fun availability date => <[date := v]> availability) av days !! d
  = if decide (d ∈ days) then Some v else av !! d.
Proof.
  revert av. induction days as [|day days IH]; intros av; cbn [foldl].
  - rewrite decide_False; [done | apply not_elem_of_nil].
  - rewrite IH. destruct (decide (d ∈ days)) as [Hin|Hin].
    + rewrite decide_True; [done | by apply list_elem_of_further].
    + destruct (decide (d = day)) as [->|Hne].
      * rewrite lookup_insert_eq, decide_True; [done | apply list_elem_of_here].
      * rewrite lookup_insert_ne by done. rewrite decide_False; [done|].
        by intros [?|?]%elem_of_cons.
Qed.

Lemma min_start_spec (x : Reservation) (xs : list Reservation) :
  (∃ r, r ∈ x :: xs ∧ min_start x xs = start r)
  ∧ ∀ r, r ∈ x :: xs → min_start x xs ≤ start r.
Proof.
  destruct (foldl_min_spec (start <$> xs) (start x)) as (Hm & Hle & Hall). split.
  - destruct Hm as [Hm|(r & Hr & Hin)%list_elem_of_fmap].
    + exists x. split; [apply list_elem_of_here | done].
    + exists r. split; [by apply list_elem_of_further | done].
  - intros r [->|Hr]%elem_of_cons; [done|].
    apply Hall. by apply list_elem_of_fmap_2.
Qed.

Lemma max_end_spec (x : Reservation) (xs : list Reservation) :
  (∃ r, r ∈ x :: xs ∧ max_end x xs = end_ r)
  ∧ ∀ r, r ∈ x :: xs → end_ r ≤ max_end x xs.
Proof.
  destruct (foldl_max_spec (end_ <$> xs) (end_ x)) as (Hm & Hle & Hall). split.
  - destruct Hm as [Hm|(r & Hr & Hin)%list_elem_of_fmap].
    + exists x. split; [apply list_elem_of_here | done].
    + exists r. split; [by apply list_elem_of_further | done].
  - intros r [->|Hr]%elem_of_cons; [done|].
    apply Hall. by apply list_elem_of_fmap_2.
Qed.

Lemma create_availability_cons (x : Reservation) (xs : list Reservation) :
  ∃ av, create_availability (x :: xs) = Normal av
    ∧ ∀ d, av !! d
           = if decide (min_start x xs ≤ d < max_end x xs) then Some ROOMS else None.
Proof.
  eexists. split; [reflexivity|]. intros d.
  rewrite lookup_foldl_insert, lookup_empty.
  fold (min_start x xs) (max_end x xs).
  destruct (decide (min_start x xs ≤ d < max_end x xs)) as [Hd|Hd].
  - rewrite decide_True; [done | by apply elem_of_date_range].
  - rewrite decide_False; [done | by rewrite elem_of_date_range].
Qed.

(** C8: on the empty list [create_availability] raises at once ([min] of an
    empty sequence), and [__main__] stops there with no state built; on a
    non-empty list it returns a counter whose keys are exactly the dates of
    [date_range lo hi], each with value [ROOMS], where [lo] is the least
    start and [hi] the greatest end among the reservations. *)
Theorem create_availability_domain (reservations : list Reservation) :
  create_availability [] = Raised ValueError_empty_sequence
  ∧ (∀ randbelow, main randbelow [] = Raised ValueError_empty_sequence)
  ∧ (reservations ≠ [] →
     ∃ av lo hi,
       create_availability reservations = Normal av
       ∧ (∃ r, r ∈ reservations ∧ lo = start r)
       ∧ (∀ r, r ∈ reservations → lo ≤ start r)
       ∧ (∃ r, r ∈ reservations ∧ hi = end_ r)
       ∧ (∀ r, r ∈ reservations → end_ r ≤ hi)
       ∧ (∀ d, d ∈ date_range lo hi → av !! d = Some ROOMS)
       ∧ (∀ d, d ∉ date_range lo hi → av !! d = None)
       ∧ (∀ d, d ∈ dom av ↔ d ∈ date_range lo hi)).
Proof.
  split; [done|]. split; [done|]. intros Hne.
  destruct reservations as [|x xs]; [done|].
  destruct (create_availability_cons x xs) as (av & Hav & Hlook).
  destruct (min_start_spec x xs) as [Hmin1 Hmin2].
  destruct (max_end_spec x xs) as [Hmax1 Hmax2].
  exists av, (min_start x xs), (max_end x xs).
  repeat split; try done.
  - intros d Hd%elem_of_date_range. rewrite Hlook. by rewrite decide_True.
  - intros d Hd. rewrite elem_of_date_range in Hd. rewrite Hlook.
    by rewrite decide_False.
  - intros Hd%elem_of_dom. rewrite Hlook in Hd. case_decide.
    + by apply elem_of_date_range.
    + by destruct Hd.
  - intros Hd%elem_of_date_range. apply elem_of_dom. rewrite Hlook.
    by rewrite decide_True.
Qed.

(** ** The resolution loop *)

Lemma pruned_app (l1 l2 : list LogRecord) : pruned (l1 ++ l2) = pruned l1 ++ pruned l2.
Proof. apply omap_app. Qed.

Lemma pruned_removing (rs : list Reservation) : pruned (LogRemoving <$> rs) = rs.
Proof. induction rs as [|r rs IH]; [done|]. cbn. by rewrite <- IH at 2. Qed.

Lemma create_availability_inv (reqs : list Reservation) (av : gmap Z Z) :
  create_availability reqs = Normal av →
  resolver_inv reqs (dom av) (mkWorld reqs av [] []).
Proof.
  intros Hc. destruct reqs as [|x xs]; [done|].
  destruct (create_availability_cons x xs) as (av' & Hav & Hlook).
  rewrite Hc in Hav. injection Hav as <-.
  destruct (min_start_spec x xs) as [_ Hmin].
  destruct (max_end_spec x xs) as [_ Hmax].
  split; simpl; [| |done|done].
  - intros d. unfold getitem. rewrite Hlook. unfold ROOMS. by case_decide.
  - intros r Hr. apply conflicting_false. intros d Hd.
    specialize (Hmin r Hr). specialize (Hmax r Hr).
    unfold getitem. rewrite Hlook, decide_True by lia. done.
Qed.

Section ResolverProperties.
Variable randbelow : nat → nat → nat.
Variable initial : list Reservation.
Variable domain : gset Z.

(** A pass of the loop body started in a state of the invariant either
    grants the drawn reservation and ends in a state of the invariant with a
    shorter pool, or, the drawn index being out of range, raises
    [IndexError] and changes nothing. *)
Lemma iteration_inv (k : nat) (w w' : World) (c : completion unit) :
  resolver_inv initial domain w →
  iteration randbelow k w = (w', c) →
  resolver_inv initial domain w'
  ∧ ((∃ picked, requests w !! randbelow k (length (requests w)) = Some picked
        ∧ c = Normal ()
        ∧ chosen w' = chosen w ++ [picked]
        ∧ (length (requests w') < length (requests w))%nat)
     ∨ (requests w !! randbelow k (length (requests w)) = None
        ∧ c = Raised IndexError_choice ∧ w' = w)).
Proof.
  intros [Hcap Hpool Hdom Hacc]. unfold iteration, pick_reservation.
  destruct (requests w !! randbelow k (length (requests w))) as [picked|] eqn:Hi.
  2:{ intros [= <- <-]. split; [by destruct w | right; by destruct w]. }
  assert (picked ∈ requests w) as Hin by (by eapply list_elem_of_lookup_2).
  destruct (list_remove_elem_of picked (requests w) Hin) as (l1 & l2 & Hreq & Hrm).
  rewrite Hrm.
  assert (∀ d, start picked ≤ d < end_ picked → 1 ≤ getitem (availablility w) d) as Hfree.
  { intros d Hd. pose proof (Hpool picked Hin) as Hc.
    rewrite conflicting_false in Hc. specialize (Hc d Hd).
    specialize (Hcap d). lia. }
  destruct (update_availability picked (availablility w)) as [av2 [[]|ex]] eqn:Hu.
  2:{ apply update_availability_Raised in Hu as (d & Hd & _ & Hle & _).
      specialize (Hfree d Hd). lia. }
  apply update_availability_Normal in Hu as (Hdec & Hframe & Hdom1 & Hdom2).
  rewrite remove_conflicting_filter.
  intros [= <- <-]. split; [split; simpl|left; exists picked; simpl].
  - intros d. destruct (decide (start picked ≤ d < end_ picked)) as [Hd|Hd].
    + destruct (Hdec d Hd) as [? ->]. specialize (Hcap d). lia.
    + rewrite (getitem_lookup_eq _ _ _ (Hframe d Hd)). apply Hcap.
  - by intros r [Hr _]%list_elem_of_filter.
  - rewrite <- Hdom. apply set_eq. intros d. split; [|by apply Hdom2].
    intros Hd2. destruct (decide (start picked ≤ d < end_ picked)) as [Hd|Hd].
    + specialize (Hfree d Hd). apply elem_of_dom. unfold getitem in Hfree.
      destruct (availablility w !! d); [done | simpl in Hfree; lia].
    + apply elem_of_dom. rewrite <- (Hframe d Hd). by apply elem_of_dom.
  - rewrite <- Hacc, Hreq, !pruned_app, pruned_removing.
    change (pruned [LogPicked picked]) with (@nil Reservation).
    rewrite app_nil_r, <- !app_assoc. f_equiv.
    rewrite (Permutation_app_comm (filter _ _)), filter_app_complement.
    rewrite <- (Permutation_middle l1). apply (Permutation_middle (pruned (log w))).
  - repeat split; try done.
    rewrite Hreq, length_app. simpl.
    pose proof (length_filter (λ r, conflicting r av2 = false) (l1 ++ l2)) as Hl.
    rewrite length_app in Hl. lia.
Qed.

(** Whatever the number of passes allowed, the loop stops in a state of
    the invariant, and it is only aborted by an out-of-range draw. *)
Lemma resolve_loop_inv (fuel k : nat) (w : World) :
  resolver_inv initial domain w →
  resolver_inv initial domain (resolve_loop randbelow fuel k w).1
  ∧ match (resolve_loop randbelow fuel k w).2 with
    | Finished => requests (resolve_loop randbelow fuel k w).1 = []
    | Aborted e => e = IndexError_choice
    | OutOfFuel => requests (resolve_loop randbelow fuel k w).1 ≠ []
    end.
Proof.
  revert k w. induction fuel as [|fuel IH]; intros k w Hinv; simpl.
  - destruct (requests w) eqn:Hreq; simpl; by rewrite ?Hreq.
  - destruct (requests w) eqn:Hreq; simpl; [by rewrite Hreq|].
    destruct (iteration randbelow k w) as [w' c] eqn:Hit.
    destruct (iteration_inv k w w' c Hinv Hit)
      as [Hinv' [(picked & _ & -> & _)|(_ & -> & _)]].
    + destruct (IH (S k) w' Hinv') as [? ?]. by destruct (resolve_loop _ _ _ _).
    + done.
Qed.

(** A budget of as many passes as there are pending requests is never
    exhausted, and a larger budget changes nothing. *)
Lemma resolve_loop_fuel (n fuel k : nat) (w : World) :
  resolver_inv initial domain w →
  (length (requests w) ≤ n)%nat → (n ≤ fuel)%nat →
  resolve_loop randbelow fuel k w = resolve_loop randbelow n k w
  ∧ (resolve_loop randbelow n k w).2 ≠ OutOfFuel
  ∧ (length (chosen (resolve_loop randbelow n k w).1)
     ≤ length (chosen w) + length (requests w))%nat.
Proof.
  revert fuel k w. induction n as [|n IH]; intros fuel k w Hinv Hlen Hfuel.
  - destruct (requests w) eqn:Hreq; [|simpl in Hlen; lia].
    destruct fuel; simpl; rewrite Hreq; simpl; repeat split; try done; lia.
  - destruct fuel as [|fuel]; [lia|]. simpl.
    destruct (requests w) eqn:Hreq; [simpl; repeat split; try done; lia|].
    destruct (iteration randbelow k w) as [w' c] eqn:Hit.
    destruct (iteration_inv k w w' c Hinv Hit)
      as [Hinv' [(picked & _ & -> & Hch & Hlt)|(_ & -> & ->)]].
    + rewrite Hreq in Hlt.
      destruct (IH fuel (S k) w' Hinv') as (-> & Hof & Hle); [lia..|].
      repeat split; try done. rewrite Hch, length_app in Hle. simpl in *. lia.
    + simpl. repeat split; try done. lia.
Qed.

Hypothesis randbelow_lt : ∀ k n, (0 < n)%nat → (randbelow k n < n)%nat.

(** With draws in range nothing is raised. *)
Lemma resolve_loop_not_Aborted (fuel k : nat) (w : World) (e : exn) :
  resolver_inv initial domain w →
  (resolve_loop randbelow fuel k w).2 ≠ Aborted e.
Proof.
  revert k w. induction fuel as [|fuel IH]; intros k w Hinv; simpl.
  - by destruct (requests w).
  - destruct (requests w) as [|r rs] eqn:Hreq; [done|].
    destruct (iteration randbelow k w) as [w' c] eqn:Hit.
    destruct (iteration_inv k w w' c Hinv Hit)
      as [Hinv' [(picked & _ & -> & _)|(Hnone & _)]].
    + by apply IH.
    + apply lookup_ge_None in Hnone.
      pose proof (randbelow_lt k (length (requests w))) as Hlt.
      rewrite Hreq in Hlt, Hnone. simpl in *. lia.
Qed.

Lemma iteration_Normal (k : nat) (w : World) :
  resolver_inv initial domain w → requests w ≠ [] →
  (iteration randbelow k w).2 = Normal ().
Proof.
  intros Hinv Hreq. destruct (iteration randbelow k w) as [w' c] eqn:Hit.
  destruct (iteration_inv k w w' c Hinv Hit)
    as [_ [(picked & _ & -> & _)|(Hnone & _)]]; [done|].
  apply lookup_ge_None in Hnone.
  pose proof (randbelow_lt k (length (requests w))) as Hlt.
  destruct (requests w); [done | simpl in *; lia].
Qed.

End ResolverProperties.

(** The pool only shrinks: [pick_reservation] takes exactly one element out,
    [remove_conflicting] none or more. *)
Lemma pick_reservation_Normal (i : nat) (rs rs' : list Reservation)
    (lg lg' : list LogRecord) (picked : Reservation) :
  pick_reservation i rs lg = (rs', lg', Normal picked) →
  rs !! i = Some picked ∧ rs ≡ₚ picked :: rs' ∧ length rs = S (length rs')
  ∧ lg' = lg ++ [LogPicked picked].
Proof.
  unfold pick_reservation. destruct (rs !! i) as [p|] eqn:Hi; [|done].
  destruct (list_remove p rs) as [l|] eqn:Hrm; [|done].
  intros [= <- <- <-]. repeat split; try done.
  - exact (list_remove_Permutation _ _ _ Hrm).
  - exact (list_remove_length _ _ _ Hrm).
Qed.

Lemma remove_conflicting_length (rs : list Reservation) (av : gmap Z Z)
    (lg : list LogRecord) :
  (length (remove_conflicting rs av lg).1.1 ≤ length rs)%nat.
Proof.
  rewrite remove_conflicting_filter. simpl. apply length_filter.
Qed.

Lemma iteration_shrinks (randbelow : nat → nat → nat) (k : nat) (w w' : World) :
  iteration randbelow k w = (w', Normal ()) →
  (length (requests w') < length (requests w))%nat.
Proof.
  unfold iteration.
  destruct (pick_reservation _ (requests w) (log w)) as [[rs1 lg1] [picked|e]] eqn:Hp;
    [|done].
  apply pick_reservation_Normal in Hp as (_ & _ & Hlen & _).
  destruct (update_availability picked (availablility w)) as [av2 [[]|e]]; [|done].
  pose proof (remove_conflicting_length rs1 av2 lg1) as Hle.
  destruct (remove_conflicting rs1 av2 lg1) as [[rs3 lg3] [[]|e]]; [|done].
  intros [= <-]. simpl in *. lia.
Qed.

(** C1: from the counter built by [create_availability], after any number
    of passes of the loop (none, some, or all of them) every count is between
    0 and [ROOMS], the counter still has the keys it was built with, and no
    pass is aborted by a count going below zero. *)
Theorem capacity_invariant (randbelow : nat → nat → nat) (reqs : list Reservation)
    (av : gmap Z Z) (fuel : nat) (d : Z) :
  create_availability reqs = Normal av →
  0 ≤ getitem (availablility (resolve_loop randbelow fuel 0 (mkWorld reqs av [] [])).1) d
    ≤ ROOMS
  ∧ dom (availablility (resolve_loop randbelow fuel 0 (mkWorld reqs av [] [])).1) = dom av
  ∧ ∀ r day, (resolve_loop randbelow fuel 0 (mkWorld reqs av [] [])).2
             ≠ Aborted (ValueError_below_zero r day).
Proof.
  intros Hc. apply create_availability_inv in Hc.
  destruct (resolve_loop_inv randbelow reqs (dom av) fuel 0 _ Hc) as [[Hcap _ Hdom _] Hst].
  split; [apply Hcap|]. split; [exact Hdom|].
  intros r day Hab. rewrite Hab in Hst. done.
Qed.

Lemma capacity_invariant_witness :
  let av : gmap Z Z :=
    <[date 2024 1 3 := 2]> (<[date 2024 1 2 := 2]> (<[date 2024 1 1 := 2]> ∅)) in
  let run := resolve_loop always_first 2 0 (mkWorld [Alice; Bob; Carol] av [] []) in
  0 ≤ getitem (availablility run.1) (date 2024 1 2) ≤ ROOMS
  ∧ dom (availablility run.1) = dom av
  ∧ ∀ r day, run.2 ≠ Aborted (ValueError_below_zero r day).
Proof.
  intros av run.
  apply (capacity_invariant always_first [Alice; Bob; Carol] av 2 (date 2024 1 2)).
  by vm_compute.
Defined.

(** C5: the end-to-end scenario.  With two rooms and the pool Alice, Bob,
    Carol, drawing Alice, then Bob, then Carol, the loop finishes having
    granted the three in that order and removed nobody; the counts are 1, 1, 2
    after the first pass, 1, 0, 1 after the second and 0, 0, 1 at the end. *)
Theorem end_to_end_scenario :
  ROOMS = 2
  ∧ ∃ w, main always_first [Alice; Bob; Carol] = Normal (w, Finished)
    ∧ log w = [LogPicked Alice; LogPicked Bob; LogPicked Carol]
    ∧ chosen w = [Alice; Bob; Carol]
    ∧ pruned (log w) = []
    ∧ requests w = []
    ∧ getitem (availablility w) <$> [date 2024 1 1; date 2024 1 2; date 2024 1 3]
      = [0; 0; 1]
    ∧ (∀ av, create_availability [Alice; Bob; Carol] = Normal av →
         getitem av <$> [date 2024 1 1; date 2024 1 2; date 2024 1 3] = [2; 2; 2]
         ∧ (∀ d, d ∈ dom av ↔ date 2024 1 1 ≤ d < date 2024 1 4)
         ∧ (let w1 := (resolve_loop always_first 1 0
                         (mkWorld [Alice; Bob; Carol] av [] [])).1 in
            chosen w1 = [Alice] ∧ requests w1 = [Bob; Carol]
            ∧ getitem (availablility w1)
                <$> [date 2024 1 1; date 2024 1 2; date 2024 1 3] = [1; 1; 2])
         ∧ (let w2 := (resolve_loop always_first 2 0
                         (mkWorld [Alice; Bob; Carol] av [] [])).1 in
            chosen w2 = [Alice; Bob] ∧ requests w2 = [Carol]
            ∧ getitem (availablility w2)
                <$> [date 2024 1 1; date 2024 1 2; date 2024 1 3] = [1; 0; 1])).
Proof.
  split; [done|]. eexists. split; [by vm_compute|].
  do 5 (split; [by vm_compute|]).
  intros av Hav.
  assert (∀ d, d ∈ dom av ↔ date 2024 1 1 ≤ d < date 2024 1 4) as Hdom.
  { destruct (create_availability_cons Alice [Bob; Carol]) as (av' & Hav' & Hlook).
    rewrite Hav in Hav'. injection Hav' as <-.
    intros d. rewrite elem_of_dom, Hlook.
    change (min_start Alice [Bob; Carol]) with (date 2024 1 1).
    change (max_end Alice [Bob; Carol]) with (date 2024 1 4).
    case_decide; split; done. }
  injection Hav as <-. split; [by vm_compute|]. split; [exact Hdom|].
  split; by vm_compute.
Qed.

(** C6: on a non-empty list of requests, with every draw in range, the
    loop exits normally within [length reqs] passes (that budget is not
    exhausted and a larger one changes nothing), with an empty pool and at
    most [length reqs] grants; every pass that completes shortens the pool,
    [pick_reservation] by exactly one element and [remove_conflicting] by
    none or more. *)
Theorem resolver_terminates (randbelow : nat → nat → nat) (reqs : list Reservation) :
  reqs ≠ [] →
  (∀ k n, (0 < n)%nat → (randbelow k n < n)%nat) →
  ∃ w, main randbelow reqs = Normal (w, Finished)
    ∧ requests w = []
    ∧ (length (chosen w) ≤ length reqs)%nat
    ∧ (∀ av fuel, create_availability reqs = Normal av → (length reqs ≤ fuel)%nat →
         resolve_loop randbelow fuel 0 (mkWorld reqs av [] []) = (w, Finished))
    ∧ (∀ k w1 w2, iteration randbelow k w1 = (w2, Normal ()) →
         (length (requests w2) < length (requests w1))%nat)
    ∧ (∀ i rs lg rs' lg' picked,
         pick_reservation i rs lg = (rs', lg', Normal picked) →
         length rs = S (length rs'))
    ∧ (∀ rs av lg, (length (remove_conflicting rs av lg).1.1 ≤ length rs)%nat).
Proof.
  intros Hne Hrb.
  assert (∃ av, create_availability reqs = Normal av) as [av Hav].
  { destruct reqs as [|x xs]; [done|].
    destruct (create_availability_cons x xs) as (av & Hav & _). by exists av. }
  pose proof (create_availability_inv reqs av Hav) as Hinv.
  set (w0 := mkWorld reqs av [] []) in *.
  destruct (resolve_loop_fuel randbelow reqs (dom av) (length reqs) (length reqs) 0 w0 Hinv)
    as (_ & Hof & Hlen); [done..|].
  destruct (resolve_loop_inv randbelow reqs (dom av) (length reqs) 0 w0 Hinv) as [_ Hst].
  pose proof (resolve_loop_not_Aborted randbelow reqs (dom av) Hrb (length reqs) 0 w0) as Hab.
  destruct (resolve_loop randbelow (length reqs) 0 w0) as [w st] eqn:Hrun.
  simpl in *. destruct st as [|e|]; [|by destruct (Hab e)|done].
  exists w. unfold main. rewrite Hav. fold w0. rewrite Hrun.
  repeat split; try done.
  - intros av' fuel Hav' Hfuel. injection Hav' as <-. fold w0.
    destruct (resolve_loop_fuel randbelow reqs (dom av) (length reqs) fuel 0 w0 Hinv)
      as (-> & _); done.
  - apply iteration_shrinks.
  - intros i rs lg rs' lg' picked Hp. by apply pick_reservation_Normal in Hp as (_ & _ & ? & _).
  - apply remove_conflicting_length.
Qed.

Lemma resolver_terminates_witness :
  ∃ w, main always_first [Alice; Bob; Carol] = Normal (w, Finished)
    ∧ requests w = []
    ∧ (length (chosen w) ≤ length [Alice; Bob; Carol])%nat
    ∧ (∀ av fuel, create_availability [Alice; Bob; Carol] = Normal av →
         (length [Alice; Bob; Carol] ≤ fuel)%nat →
         resolve_loop always_first fuel 0 (mkWorld [Alice; Bob; Carol] av [] [])
         = (w, Finished))
    ∧ (∀ k w1 w2, iteration always_first k w1 = (w2, Normal ()) →
         (length (requests w2) < length (requests w1))%nat)
    ∧ (∀ i rs lg rs' lg' picked,
         pick_reservation i rs lg = (rs', lg', Normal picked) →
         length rs = S (length rs'))
    ∧ (∀ rs av lg, (length (remove_conflicting rs av lg).1.1 ≤ length rs)%nat).
Proof.
  apply (resolver_terminates always_first [Alice; Bob; Carol]).
  - done.
  - intros k n Hn. unfold always_first. lia.
Defined.

(** C7: when the loop has finished, the pool is empty and the granted
    sequence together with the reservations logged as removed is a
    rearrangement of the initial list, each initial reservation counted
    once: a reservation is in the initial list exactly if it was granted or
    removed, and when the initial list has no repetition nothing is both
    granted and removed, nor granted or removed twice. *)
Theorem resolver_partition (randbelow : nat → nat → nat) (reqs : list Reservation)
    (w : World) :
  main randbelow reqs = Normal (w, Finished) →
  requests w = []
  ∧ chosen w ++ pruned (log w) ≡ₚ reqs
  ∧ (length (chosen w) + length (pruned (log w)) = length reqs)%nat
  ∧ (∀ r, r ∈ reqs ↔ r ∈ chosen w ∨ r ∈ pruned (log w))
  ∧ (NoDup reqs →
       NoDup (chosen w) ∧ NoDup (pruned (log w))
       ∧ ∀ r, r ∈ chosen w → r ∉ pruned (log w)).
Proof.
  unfold main. destruct (create_availability reqs) as [av|e] eqn:Hav; [|done].
  intros [= Hrun].
  pose proof (create_availability_inv reqs av Hav) as Hinv.
  destruct (resolve_loop_inv randbelow reqs (dom av) (length reqs) 0 _ Hinv) as [Hinv' Hst].
  rewrite Hrun in Hinv', Hst. simpl in *.
  destruct Hinv' as [_ _ _ Hacc]. rewrite Hst, app_nil_r in Hacc.
  split; [done|]. split; [done|]. split; [|split].
  - by rewrite <- Hacc, length_app.
  - intros r. by rewrite <- Hacc, elem_of_app.
  - intros Hnd. rewrite <- Hacc in Hnd. apply NoDup_app in Hnd as (? & ? & ?). done.
Qed.

Lemma resolver_partition_witness :
  ∃ w, main always_first [Alice; Bob; Carol] = Normal (w, Finished)
    ∧ requests w = []
    ∧ chosen w ++ pruned (log w) ≡ₚ [Alice; Bob; Carol]
    ∧ (length (chosen w) + length (pruned (log w)) = length [Alice; Bob; Carol])%nat
    ∧ (∀ r, r ∈ [Alice; Bob; Carol] ↔ r ∈ chosen w ∨ r ∈ pruned (log w))
    ∧ (NoDup [Alice; Bob; Carol] →
         NoDup (chosen w) ∧ NoDup (pruned (log w))
         ∧ ∀ r, r ∈ chosen w → r ∉ pruned (log w)).
Proof.
  eexists. split; [by vm_compute|].
  apply (resolver_partition always_first [Alice; Bob; Carol]). by vm_compute.
Defined.

(** * Further properties of the functions *)

(** ** [date_range] *)

Lemma date_range_app (n : nat) (a b c : Z) :
  Z.to_nat (b - a) = n → a ≤ b ≤ c →
  date_range a c = date_range a b ++ date_range b c.
Proof.
  revert a. induction n as [|n IH]; intros a Hn Hab.
  - assert (a = b) as -> by lia. by rewrite (date_range_empty b b).
  - rewrite (date_range_step a c), (date_range_step a b).
    rewrite !decide_True by lia. simpl. f_equal. apply IH; lia.
Qed.

(** X1: a range splits at any day between its ends: the days from [a] to [c]
    are those from [a] to [b] followed by those from [b] to [c]. *)
Theorem date_range_split (a b c : Z) :
  a ≤ b ≤ c → date_range a c = date_range a b ++ date_range b c.
Proof. intros Hab. by apply date_range_app with (n := Z.to_nat (b - a)). Qed.

Lemma date_range_split_witness :
  date_range (date 2024 1 1) (date 2024 1 4)
  = date_range (date 2024 1 1) (date 2024 1 2)
    ++ date_range (date 2024 1 2) (date 2024 1 4).
Proof. apply date_range_split. by vm_compute. Defined.

Lemma date_range_checked_step (current end_ : Z) :
  date_range_checked current end_ =
  if decide (current < end_) then
    if decide (0 < current + 1 ≤ MAXORDINAL) then
      (current :: (date_range_checked (current + 1) end_).1,
       (date_range_checked (current + 1) end_).2)
    else ([current], Overflowed)
  else ([], Exhausted).
Proof.
  rewrite date_range_checked_equation_1.
  destruct (decide (current < end_)); [|done]. simpl.
  by destruct (decide (0 < current + 1 ≤ MAXORDINAL)).
Qed.

Lemma date_range_checked_ok (n : nat) (start end_ : Z) :
  Z.to_nat (end_ - start) = n → 0 < start → end_ ≤ MAXORDINAL →
  date_range_checked start end_ = (date_range start end_, Exhausted).
Proof.
  revert start. induction n as [|n IH]; intros start Hn Hs He;
    rewrite date_range_checked_step, date_range_step; case_decide; try lia; [done|].
  rewrite decide_True by lia. rewrite IH by lia. done.
Qed.

(** X2: between valid dates (ordinals from 1 to that of 9999-12-31)
    [current += step] never raises [OverflowError], not even when [end] is
    the last representable date: the generator yields the days of
    [date_range] and stops by itself.  When the range check does fail, it
    fails after the day has been yielded. *)
Theorem date_range_never_overflows (start end_ : Z) :
  0 < start → end_ ≤ MAXORDINAL →
  date_range_checked start end_ = (date_range start end_, Exhausted)
  ∧ (∀ s e, (date_range_checked s e).2 = Overflowed →
       ∃ d, d ∈ (date_range_checked s e).1 ∧ ¬ (0 < d + 1 ≤ MAXORDINAL)).
Proof.
  intros Hs He. split.
  { by apply date_range_checked_ok with (n := Z.to_nat (end_ - start)). }
  intros s e. remember (Z.to_nat (e - s)) as n eqn:Hn. revert s Hn.
  induction n as [|n IH]; intros s Hn; rewrite date_range_checked_step;
    case_decide; try done; try lia.
  case_decide; simpl.
  - intros Hov. destruct (IH (s + 1)) as (d & Hd & Hbad); [lia | done |].
    exists d. split; [by apply list_elem_of_further | done].
  - intros _. exists s. split; [apply list_elem_of_here | done].
Qed.

Lemma date_range_never_overflows_witness :
  date_range_checked (date 9999 12 29) (date 9999 12 31)
    = (date_range (date 9999 12 29) (date 9999 12 31), Exhausted)
  ∧ (∀ s e, (date_range_checked s e).2 = Overflowed →
       ∃ d, d ∈ (date_range_checked s e).1 ∧ ¬ (0 < d + 1 ≤ MAXORDINAL)).
Proof. apply date_range_never_overflows; by vm_compute. Defined.

(** ** [pick_reservation] *)

Lemma list_remove_first {A : Type} `{EqDecision A} (x : A) (l l' : list A) :
  list_remove x l = Some l' →
  ∃ j, l !! j = Some x
     ∧ (∀ j', (j' < j)%nat → l !! j' ≠ Some x)
     ∧ l' = delete j l.
Proof.
  revert l'. induction l as [|y l IH]; intros l'; simpl; [done|].
  destruct (decide (y = x)) as [->|Hne].
  - intros [= <-]. exists 0%nat. split; [done|]. split; [|done]. intros j' Hj'. lia.
  - destruct (list_remove x l) as [l0|] eqn:Hrm; [|done].
    intros [= <-]. destruct (IH l0 eq_refl) as (j & Hj & Hfirst & ->).
    exists (S j). split; [done|]. split; [|done].
    intros [|j'] Hj'; simpl; [congruence|]. apply Hfirst. lia.
Qed.

(** X3: [pick_reservation] returns the element at the drawn index and logs
    it, but what it takes out of the list is the first element equal to it,
    at an index [j] not after the drawn one (the drawn position itself when
    the list has no repetition); the rest keeps its order.  With the index
    out of range (in particular on an empty list) it raises [IndexError] and
    leaves list and log as they were. *)
Theorem pick_reservation_first_equal (i : nat) (rs : list Reservation)
    (lg : list LogRecord) :
  match rs !! i with
  | Some picked =>
      ∃ j, (j ≤ i)%nat
         ∧ rs !! j = Some picked
         ∧ (∀ j', (j' < j)%nat → rs !! j' ≠ Some picked)
         ∧ pick_reservation i rs lg
           = (delete j rs, lg ++ [LogPicked picked], Normal picked)
         ∧ (NoDup rs → j = i)
  | None => pick_reservation i rs lg = (rs, lg, Raised IndexError_choice)
  end.
Proof.
  unfold pick_reservation. destruct (rs !! i) as [picked|] eqn:Hi; [|done].
  assert (picked ∈ rs) as Hin by (by eapply list_elem_of_lookup_2).
  destruct (list_remove_elem_of picked rs Hin) as (l1 & l2 & _ & Hrm).
  destruct (list_remove_first picked rs _ Hrm) as (j & Hj & Hfirst & Hdel).
  exists j. rewrite Hrm, Hdel. repeat split; try done.
  - destruct (decide (j ≤ i)%nat) as [|Hn]; [done|].
    destruct (Hfirst i); [lia | done].
  - intros Hnd. by apply (NoDup_lookup rs j i picked).
Qed.

(** ** [remove_conflicting] *)

Lemma filter_all {A : Type} (P : A → Prop) `{∀ x, Decision (P x)} (l : list A) :
  (∀ x, x ∈ l → P x) → filter P l = l.
Proof.
  induction l as [|x l IH]; intros Hall; [done|].
  rewrite filter_cons_True by (apply Hall, list_elem_of_here).
  f_equal. apply IH. intros y Hy. by apply Hall, list_elem_of_further.
Qed.

Lemma filter_none {A : Type} (P : A → Prop) `{∀ x, Decision (P x)} (l : list A) :
  (∀ x, x ∈ l → ¬ P x) → filter P l = [].
Proof.
  induction l as [|x l IH]; intros Hall; [done|].
  rewrite filter_cons_False by (apply Hall, list_elem_of_here).
  apply IH. intros y Hy. by apply Hall, list_elem_of_further.
Qed.

Lemma remove_conflicting_satisfiable (pool : list Reservation) (av : gmap Z Z)
    (lg : list LogRecord) :
  pool_satisfiable av pool → remove_conflicting pool av lg = (pool, lg, Normal ()).
Proof.
  intros Hsat. rewrite remove_conflicting_filter.
  rewrite filter_all by done.
  rewrite filter_none by (intros r Hr Hn; by apply Hn, Hsat).
  by rewrite app_nil_r.
Qed.

(** X4: pruning is idempotent: a second [remove_conflicting] against the
    same counter removes nothing and logs nothing. *)
Theorem remove_conflicting_idempotent (pool : list Reservation) (av : gmap Z Z)
    (lg : list LogRecord) :
  remove_conflicting (remove_conflicting pool av lg).1.1 av
                     (remove_conflicting pool av lg).1.2
  = remove_conflicting pool av lg.
Proof.
  rewrite (remove_conflicting_filter pool). simpl.
  apply remove_conflicting_satisfiable.
  by intros r [Hr _]%list_elem_of_filter.
Qed.

(** ** Reservations with an empty span *)

Lemma conflicting_empty_span (r : Reservation) (av : gmap Z Z) :
  end_ r ≤ start r → conflicting r av = false.
Proof. intros He. apply conflicting_false. intros d Hd. lia. Qed.

(** X5: a reservation whose end is not after its start occupies no day:
    granting it leaves the counter untouched and cannot fail, whatever the
    counts, and [remove_conflicting] never removes it. *)
Theorem empty_span_reservation (r : Reservation) :
  end_ r ≤ start r →
  (∀ av, update_availability r av = (av, Normal ()))
  ∧ (∀ av, conflicting r av = false)
  ∧ (∀ pool av lg, r ∈ pool → r ∈ (remove_conflicting pool av lg).1.1).
Proof.
  intros He. split; [|split].
  - intros av. unfold update_availability. by rewrite date_range_empty.
  - intros av. by apply conflicting_empty_span.
  - intros pool av lg Hin. rewrite remove_conflicting_filter. simpl.
    apply list_elem_of_filter. split; [by apply conflicting_empty_span | done].
Qed.

Lemma empty_span_reservation_witness :
  let r := mkReservation (date 2024 1 3) (date 2024 1 3) "Dave" in
  (∀ av, update_availability r av = (av, Normal ()))
  ∧ (∀ av, conflicting r av = false)
  ∧ (∀ pool av lg, r ∈ pool → r ∈ (remove_conflicting pool av lg).1.1).
Proof. intros r. apply (empty_span_reservation r). simpl. lia. Defined.

(** ** [update_availability] *)

Lemma update_availability_succeeds (r : Reservation) (av : gmap Z Z) :
  (∀ d, covers d r → 1 ≤ getitem av d) →
  ∃ av', update_availability r av = (av', Normal ()).
Proof.
  intros Hfree. destruct (update_availability r av) as [av' [[]|ex]] eqn:Hu.
  - by exists av'.
  - apply update_availability_Raised in Hu as (d & Hd & _ & Hle & _).
    specialize (Hfree d Hd). lia.
Qed.

Lemma update_availability_lookup (r : Reservation) (av av' : gmap Z Z) (d : Z) :
  update_availability r av = (av', Normal ()) →
  av' !! d = if decide (covers d r) then Some (getitem av d - 1) else av !! d.
Proof.
  intros (Hin & Hframe & Hdom & _)%update_availability_Normal.
  case_decide as Hd; [|by apply Hframe].
  destruct (Hin d Hd) as [_ Hget]. specialize (Hdom d Hd).
  apply elem_of_dom in Hdom as [v Hv]. unfold getitem in Hget at 1.
  rewrite Hv in Hget |- *. simpl in Hget. by rewrite Hget.
Qed.

Lemma update_availability_getitem (r : Reservation) (av av' : gmap Z Z) (d : Z) :
  update_availability r av = (av', Normal ()) →
  getitem av' d = getitem av d - (if decide (covers d r) then 1 else 0)
  ∧ (covers d r → 1 ≤ getitem av d).
Proof.
  intros (Hin & Hframe & _)%update_availability_Normal. case_decide as Hd.
  - destruct (Hin d Hd). split; [lia | done].
  - rewrite (getitem_lookup_eq _ _ _ (Hframe d Hd)). split; [lia | done].
Qed.

(** X6: two grants that succeed one after the other also succeed in the
    opposite order, and leave the same counter. *)
Theorem update_availability_commute (r1 r2 : Reservation) (av av1 av2 : gmap Z Z) :
  update_availability r1 av = (av1, Normal ()) →
  update_availability r2 av1 = (av2, Normal ()) →
  ∃ av1', update_availability r2 av = (av1', Normal ())
        ∧ update_availability r1 av1' = (av2, Normal ()).
Proof.
  intros H1 H2.
  assert (∀ d, covers d r2 → 1 ≤ getitem av d) as Hfree2.
  { intros d Hd. destruct (update_availability_getitem _ _ _ d H1) as [Hg _].
    destruct (update_availability_getitem _ _ _ d H2) as [_ Hp].
    specialize (Hp Hd). case_decide; lia. }
  destruct (update_availability_succeeds r2 av Hfree2) as [av1' H2'].
  assert (∀ d, covers d r1 → 1 ≤ getitem av1' d) as Hfree1.
  { intros d Hd. destruct (update_availability_getitem _ _ _ d H1) as [Hg Hp1].
    destruct (update_availability_getitem _ _ _ d H2) as [_ Hp2].
    destruct (update_availability_getitem _ _ _ d H2') as [Hg' _].
    specialize (Hp1 Hd). rewrite decide_True in Hg by done.
    case_decide; [specialize (Hp2 ltac:(done))|]; lia. }
  destruct (update_availability_succeeds r1 av1' Hfree1) as [av2' H1'].
  exists av1'. split; [done|]. rewrite H1'. do 2 f_equal.
  apply map_eq. intros d.
  rewrite (update_availability_lookup _ _ _ d H1'), (update_availability_lookup _ _ _ d H2).
  rewrite (update_availability_lookup _ _ _ d H1), (update_availability_lookup _ _ _ d H2').
  destruct (update_availability_getitem _ _ _ d H1) as [Hg1 _].
  destruct (update_availability_getitem _ _ _ d H2') as [Hg2 _].
  rewrite Hg1, Hg2. repeat case_decide; try done; f_equal; lia.
Qed.

Lemma update_availability_commute_witness :
  let av : gmap Z Z :=
    <[date 2024 1 3 := 2]> (<[date 2024 1 2 := 2]> (<[date 2024 1 1 := 2]> ∅)) in
  ∃ av1', update_availability Bob av = (av1', Normal ())
        ∧ update_availability Alice av1'
          = ((update_availability Bob (update_availability Alice av).1).1, Normal ()).
Proof.
  intros av.
  apply (update_availability_commute Alice Bob av (update_availability Alice av).1);
    by vm_compute.
Defined.

(** ** [create_availability] *)

Lemma min_start_unique (x y : Reservation) (xs ys : list Reservation) :
  x :: xs ≡ₚ y :: ys → min_start x xs = min_start y ys.
Proof.
  intros Hp.
  destruct (min_start_spec x xs) as [(r1 & Hr1 & He1) Hl1].
  destruct (min_start_spec y ys) as [(r2 & Hr2 & He2) Hl2].
  rewrite Hp in Hr1. rewrite <- Hp in Hr2.
  specialize (Hl1 r2 Hr2). specialize (Hl2 r1 Hr1). lia.
Qed.

Lemma max_end_unique (x y : Reservation) (xs ys : list Reservation) :
  x :: xs ≡ₚ y :: ys → max_end x xs = max_end y ys.
Proof.
  intros Hp.
  destruct (max_end_spec x xs) as [(r1 & Hr1 & He1) Hl1].
  destruct (max_end_spec y ys) as [(r2 & Hr2 & He2) Hl2].
  rewrite Hp in Hr1. rewrite <- Hp in Hr2.
  specialize (Hl1 r2 Hr2). specialize (Hl2 r1 Hr1). lia.
Qed.

(** X7: the counter built does not depend on the order of the requests in
    the file. *)
Theorem create_availability_Permutation (reqs reqs' : list Reservation) :
  reqs ≡ₚ reqs' → create_availability reqs = create_availability reqs'.
Proof.
  intros Hp. destruct reqs as [|x xs], reqs' as [|y ys].
  - done.
  - by apply Permutation_nil_cons in Hp.
  - symmetry in Hp. by apply Permutation_nil_cons in Hp.
  - destruct (create_availability_cons x xs) as (av & -> & Hav).
    destruct (create_availability_cons y ys) as (av' & -> & Hav').
    f_equal. apply map_eq. intros d.
    by rewrite Hav, Hav', (min_start_unique x y xs ys Hp), (max_end_unique x y xs ys Hp).
Qed.

Lemma create_availability_Permutation_witness :
  create_availability [Alice; Bob; Carol] = create_availability [Carol; Alice; Bob].
Proof.
  apply create_availability_Permutation.
  by rewrite (Permutation_cons_append [Alice; Bob] Carol).
Defined.

(** X8: on the counter just built every request is satisfiable: its days
    are all keys of the counter with [ROOMS] free rooms, granting it alone
    succeeds, and [remove_conflicting] removes nothing from the list. *)
Theorem fresh_availability_admits_all (reqs : list Reservation) (av : gmap Z Z)
    (lg : list LogRecord) :
  create_availability reqs = Normal av →
  remove_conflicting reqs av lg = (reqs, lg, Normal ())
  ∧ ∀ r, r ∈ reqs →
      (∀ d, covers d r → av !! d = Some ROOMS)
      ∧ (update_availability r av).2 = Normal ().
Proof.
  intros Hc. pose proof (create_availability_inv reqs av Hc) as [Hcap Hpool _ _].
  simpl in *. split; [by apply remove_conflicting_satisfiable|].
  intros r Hr. split.
  - intros d Hd. destruct reqs as [|x xs]; [done|].
    destruct (create_availability_cons x xs) as (av' & Hav & Hlook).
    rewrite Hc in Hav. injection Hav as <-.
    destruct (min_start_spec x xs) as [_ Hmin]. destruct (max_end_spec x xs) as [_ Hmax].
    specialize (Hmin r Hr). specialize (Hmax r Hr). unfold covers in Hd.
    rewrite Hlook, decide_True; [done | lia].
  - destruct (update_availability_succeeds r av) as [av' ->]; [|done].
    intros d Hd. specialize (Hpool r Hr). rewrite conflicting_false in Hpool.
    specialize (Hpool d Hd). specialize (Hcap d). lia.
Qed.

Lemma fresh_availability_admits_all_witness :
  let av : gmap Z Z :=
    <[date 2024 1 3 := 2]> (<[date 2024 1 2 := 2]> (<[date 2024 1 1 := 2]> ∅)) in
  remove_conflicting [Alice; Bob; Carol] av [] = ([Alice; Bob; Carol], [], Normal ())
  ∧ ∀ r, r ∈ [Alice; Bob; Carol] →
      (∀ d, covers d r → av !! d = Some ROOMS)
      ∧ (update_availability r av).2 = Normal ().
Proof.
  intros av. apply (fresh_availability_admits_all [Alice; Bob; Carol] av []).
  by vm_compute.
Defined.

(** * Further properties of the resolution loop *)

(** What a completed pass of the loop body does, from any state. *)
Lemma iteration_Normal_inv (randbelow : nat → nat → nat) (k : nat) (w w' : World) :
  iteration randbelow k w = (w', Normal ()) →
  ∃ picked rs1,
    requests w !! randbelow k (length (requests w)) = Some picked
    ∧ requests w ≡ₚ picked :: rs1
    ∧ update_availability picked (availablility w) = (availablility w', Normal ())
    ∧ requests w' = filter (λ r, conflicting r (availablility w') = false) rs1
    ∧ chosen w' = chosen w ++ [picked]
    ∧ log w' = (log w ++ [LogPicked picked])
               ++ (LogRemoving <$> filter (λ r, ¬ conflicting r (availablility w') = false) rs1).
Proof.
  unfold iteration.
  destruct (pick_reservation _ (requests w) (log w)) as [[rs1 lg1] [picked|e]] eqn:Hp;
    [|done].
  apply pick_reservation_Normal in Hp as (Hi & Hperm & _ & ->).
  destruct (update_availability picked (availablility w)) as [av2 [[]|e]] eqn:Hu; [|done].
  rewrite remove_conflicting_filter. intros [= <-]. simpl.
  exists picked, rs1. by repeat split.
Qed.

Section LoopInvariants.
Variable randbelow : nat → nat → nat.
Variable initial : list Reservation.
Variable domain : gset Z.

(** A property of the state that completed passes preserve holds after any
    number of passes. *)
Lemma resolve_loop_preserves (P : World → Prop) :
  (∀ k w w', resolver_inv initial domain w → P w →
             iteration randbelow k w = (w', Normal ()) → P w') →
  ∀ fuel k w, resolver_inv initial domain w → P w →
              P (resolve_loop randbelow fuel k w).1.
Proof.
  intros Hstep fuel. induction fuel as [|fuel IH]; intros k w Hinv HP; simpl.
  - by destruct (requests w).
  - destruct (requests w) eqn:Hreq; [done|].
    destruct (iteration randbelow k w) as [w' c] eqn:Hit.
    destruct (iteration_inv randbelow initial domain k w w' c Hinv Hit)
      as [Hinv' [(picked & _ & -> & _)|(_ & -> & ->)]].
    + apply IH; [done|]. exact (Hstep k w w' Hinv HP Hit).
    + done.
Qed.

Lemma occupancy_app (d : Z) (l1 l2 : list Reservation) :
  occupancy d (l1 ++ l2) = (occupancy d l1 + occupancy d l2)%nat.
Proof. unfold occupancy. by rewrite filter_app, length_app. Qed.

Lemma occupancy_singleton (d : Z) (r : Reservation) :
  occupancy d [r] = if decide (covers d r) then 1%nat else 0%nat.
Proof.
  unfold occupancy. case_decide.
  - by rewrite filter_cons_True.
  - by rewrite filter_cons_False.
Qed.

Lemma counts_grants_step (av0 : gmap Z Z) (k : nat) (w w' : World) :
  counts_grants av0 w → iteration randbelow k w = (w', Normal ()) →
  counts_grants av0 w'.
Proof.
  intros Hcg (picked & rs1 & _ & _ & Hu & _ & Hch & _)%iteration_Normal_inv d.
  destruct (update_availability_getitem _ _ _ d Hu) as [-> _].
  rewrite Hch, occupancy_app, occupancy_singleton, (Hcg d). case_decide; lia.
Qed.

Lemma pruned_blocked_step (k : nat) (w w' : World) :
  pruned_blocked w → iteration randbelow k w = (w', Normal ()) → pruned_blocked w'.
Proof.
  intros Hpb (picked & rs1 & _ & _ & Hu & _ & _ & Hlog)%iteration_Normal_inv r.
  rewrite Hlog, !pruned_app, pruned_removing.
  change (pruned [LogPicked picked]) with (@nil Reservation). rewrite app_nil_r.
  intros [Hr|Hr]%elem_of_app.
  - apply Hpb, conflicting_true in Hr as (d & Hd & H0).
    apply conflicting_true. exists d. split; [done|].
    destruct (update_availability_getitem _ _ _ d Hu) as [-> Hpos].
    case_decide as Hc; [specialize (Hpos Hc)|]; lia.
  - apply list_elem_of_filter in Hr as [Hr _]. by destruct (conflicting r _).
Qed.

(** The granted sequence is the sequence of reservations logged as picked. *)
Lemma picked_of_step (k : nat) (w w' : World) :
  chosen w = picked_of (log w) → iteration randbelow k w = (w', Normal ()) →
  chosen w' = picked_of (log w').
Proof.
  intros Hc (picked & rs1 & _ & _ & _ & _ & Hch & Hlog)%iteration_Normal_inv.
  rewrite Hch, Hlog, Hc. unfold picked_of. rewrite !omap_app. simpl.
  set (l := filter _ rs1). clearbody l.
  assert (omap (λ rec, match rec with LogPicked r => Some r | LogRemoving _ => None end)
               (LogRemoving <$> l) = []) as ->.
  { induction l as [|x l IH]; [done|]. simpl. exact IH. }
  by rewrite app_nil_r.
Qed.

End LoopInvariants.

Lemma occupancy_Permutation (d : Z) (l1 l2 : list Reservation) :
  l1 ≡ₚ l2 → occupancy d l1 = occupancy d l2.
Proof. intros Hp. unfold occupancy. by rewrite Hp. Qed.

Lemma occupancy_elem_of (d : Z) (r : Reservation) (l : list Reservation) :
  r ∈ l → covers d r → (1 ≤ occupancy d l)%nat.
Proof.
  intros Hr Hd. apply list_elem_of_split in Hr as (l1 & l2 & ->).
  rewrite occupancy_app. change (r :: l2) with ([r] ++ l2).
  rewrite occupancy_app, occupancy_singleton, decide_True by done. lia.
Qed.

Lemma occupancy_le_length (d : Z) (l : list Reservation) :
  (occupancy d l ≤ length l)%nat.
Proof. apply length_filter. Qed.

Lemma create_availability_covers (reqs : list Reservation) (av : gmap Z Z)
    (r : Reservation) (d : Z) :
  create_availability reqs = Normal av → r ∈ reqs → covers d r →
  getitem av d = ROOMS.
Proof.
  intros Hc Hr Hd. destruct reqs as [|x xs]; [done|].
  destruct (create_availability_cons x xs) as (av' & Hav & Hlook).
  rewrite Hc in Hav. injection Hav as <-.
  destruct (min_start_spec x xs) as [_ Hmin]. destruct (max_end_spec x xs) as [_ Hmax].
  specialize (Hmin r Hr). specialize (Hmax r Hr). unfold covers in Hd.
  unfold getitem. rewrite Hlook, decide_True; [done | lia].
Qed.

Lemma create_availability_outside (reqs : list Reservation) (av : gmap Z Z) (d : Z) :
  create_availability reqs = Normal av → 0 ≤ getitem av d ≤ ROOMS.
Proof. intros Hc. by destruct (create_availability_inv reqs av Hc) as [Hcap _ _ _]. Qed.

(** The state in which [main] starts the loop, and what holds of the state
    after any number of passes. *)
Lemma resolve_loop_facts (randbelow : nat → nat → nat) (reqs : list Reservation)
    (av : gmap Z Z) (fuel : nat) :
  create_availability reqs = Normal av →
  let w := (resolve_loop randbelow fuel 0 (mkWorld reqs av [] [])).1 in
  resolver_inv reqs (dom av) w
  ∧ counts_grants av w
  ∧ pruned_blocked w
  ∧ chosen w = picked_of (log w).
Proof.
  intros Hc w. pose proof (create_availability_inv reqs av Hc) as Hinv.
  split; [by apply resolve_loop_inv|]. split; [|split].
  - apply (resolve_loop_preserves randbelow reqs (dom av) (counts_grants av)); [|done|].
    + intros k w0 w' _. apply counts_grants_step.
    + intros d. simpl. unfold occupancy. simpl. lia.
  - apply (resolve_loop_preserves randbelow reqs (dom av) pruned_blocked); [|done|].
    + intros k w0 w' _. apply pruned_blocked_step.
    + intros r Hr. by apply elem_of_nil in Hr.
  - apply (resolve_loop_preserves randbelow reqs (dom av)
             (λ w, chosen w = picked_of (log w))); [|done|done].
    intros k w0 w' _. apply picked_of_step.
Qed.

Lemma main_Finished_inv (randbelow : nat → nat → nat) (reqs : list Reservation)
    (w : World) :
  main randbelow reqs = Normal (w, Finished) →
  ∃ av, create_availability reqs = Normal av
      ∧ w = (resolve_loop randbelow (length reqs) 0 (mkWorld reqs av [] [])).1
      ∧ requests w = [].
Proof.
  unfold main. destruct (create_availability reqs) as [av|e] eqn:Hav; [|done].
  intros [= Hrun]. exists av. split; [done|]. rewrite Hrun. split; [done|].
  pose proof (create_availability_inv reqs av Hav) as Hinv.
  destruct (resolve_loop_inv randbelow reqs (dom av) (length reqs) 0 _ Hinv) as [_ Hst].
  by rewrite Hrun in Hst.
Qed.

(** X9: no day is overbooked.  After any number of passes the count of a
    day is its initial count minus the number of granted reservations
    covering it; so at most [ROOMS] granted reservations cover any day, and
    none covers a day that is not a key of the counter. *)
Theorem no_overbooking (randbelow : nat → nat → nat) (reqs : list Reservation)
    (av : gmap Z Z) (fuel : nat) (d : Z) :
  create_availability reqs = Normal av →
  let w := (resolve_loop randbelow fuel 0 (mkWorld reqs av [] [])).1 in
  getitem (availablility w) d = getitem av d - Z.of_nat (occupancy d (chosen w))
  ∧ Z.of_nat (occupancy d (chosen w)) ≤ ROOMS
  ∧ (d ∉ dom av → occupancy d (chosen w) = 0%nat).
Proof.
  intros Hc w.
  destruct (resolve_loop_facts randbelow reqs av fuel Hc) as ([Hcap _ _ _] & Hcg & _).
  fold w in Hcap, Hcg. specialize (Hcap d). specialize (Hcg d).
  pose proof (create_availability_outside reqs av d Hc) as Hav.
  split; [done|]. split; [lia|].
  intros Hd. apply not_elem_of_dom_1 in Hd. unfold getitem in Hav, Hcg at 2.
  rewrite Hd in Hav, Hcg. simpl in *. lia.
Qed.

Lemma no_overbooking_witness :
  let av : gmap Z Z :=
    <[date 2024 1 3 := 2]> (<[date 2024 1 2 := 2]> (<[date 2024 1 1 := 2]> ∅)) in
  let w := (resolve_loop always_first 3 0 (mkWorld [Alice; Bob; Carol] av [] [])).1 in
  getitem (availablility w) (date 2024 1 2)
    = getitem av (date 2024 1 2) - Z.of_nat (occupancy (date 2024 1 2) (chosen w))
  ∧ Z.of_nat (occupancy (date 2024 1 2) (chosen w)) ≤ ROOMS
  ∧ (date 2024 1 2 ∉ dom av → occupancy (date 2024 1 2) (chosen w) = 0%nat).
Proof.
  intros av.
  apply (no_overbooking always_first [Alice; Bob; Carol] av 3 (date 2024 1 2)).
  by vm_compute.
Defined.

(** X10: the grants are maximal.  After any number of passes, every
    reservation logged as removed is one of the requests and has a day of its
    span on which the count is 0 and exactly [ROOMS] granted reservations
    overlap: it could not be granted on top of those already granted. *)
Theorem pruned_cannot_be_added (randbelow : nat → nat → nat) (reqs : list Reservation)
    (av : gmap Z Z) (fuel : nat) (r : Reservation) :
  create_availability reqs = Normal av →
  let w := (resolve_loop randbelow fuel 0 (mkWorld reqs av [] [])).1 in
  r ∈ pruned (log w) →
  r ∈ reqs
  ∧ ∃ d, covers d r
       ∧ getitem (availablility w) d = 0
       ∧ Z.of_nat (occupancy d (chosen w)) = ROOMS.
Proof.
  intros Hc w Hr.
  destruct (resolve_loop_facts randbelow reqs av fuel Hc) as ([_ _ _ Hacc] & Hcg & Hpb & _).
  fold w in Hacc, Hcg, Hpb.
  assert (r ∈ reqs) as Hin.
  { rewrite <- Hacc, !elem_of_app. auto. }
  split; [done|]. apply Hpb, conflicting_true in Hr as (d & Hd & H0).
  exists d. split; [done|]. split; [done|].
  specialize (Hcg d). rewrite (create_availability_covers reqs av r d Hc Hin Hd) in Hcg. lia.
Qed.

Lemma pruned_cannot_be_added_witness :
  let av : gmap Z Z := <[date 2024 1 1 := 2]> ∅ in
  let w := (resolve_loop always_first 3 0 (mkWorld [Xavier; Yara; Zoe] av [] [])).1 in
  Zoe ∈ [Xavier; Yara; Zoe]
  ∧ ∃ d, covers d Zoe
       ∧ getitem (availablility w) d = 0
       ∧ Z.of_nat (occupancy d (chosen w)) = ROOMS.
Proof.
  intros av.
  apply (pruned_cannot_be_added always_first [Xavier; Yara; Zoe] av 3 Zoe).
  - by vm_compute.
  - vm_compute. apply list_elem_of_here.
Defined.

(** X11: when the requests fit, all are granted.  If no day is covered by
    more than [ROOMS] of the requests, then no pass removes anything, and
    when the loop has finished the granted sequence is a rearrangement of the
    requests. *)
Theorem all_fit_all_granted (randbelow : nat → nat → nat) (reqs : list Reservation)
    (av : gmap Z Z) (fuel : nat) :
  (∀ d, Z.of_nat (occupancy d reqs) ≤ ROOMS) →
  create_availability reqs = Normal av →
  let w := (resolve_loop randbelow fuel 0 (mkWorld reqs av [] [])).1 in
  pruned (log w) = []
  ∧ chosen w ++ requests w ≡ₚ reqs
  ∧ (∀ w', main randbelow reqs = Normal (w', Finished) → chosen w' ≡ₚ reqs).
Proof.
  intros Hfit Hc.
  assert (∀ fuel, pruned (log (resolve_loop randbelow fuel 0 (mkWorld reqs av [] [])).1) = []
                  ∧ chosen (resolve_loop randbelow fuel 0 (mkWorld reqs av [] [])).1
                    ++ requests (resolve_loop randbelow fuel 0 (mkWorld reqs av [] [])).1
                    ≡ₚ reqs) as Hall.
  { clear fuel. intros fuel.
    pose proof (create_availability_inv reqs av Hc) as Hinv.
    assert (pruned (log (resolve_loop randbelow fuel 0 (mkWorld reqs av [] [])).1) = []
            ∧ counts_grants av (resolve_loop randbelow fuel 0 (mkWorld reqs av [] [])).1)
      as [Hnil _].
    { apply (resolve_loop_preserves randbelow reqs (dom av)
               (λ w, pruned (log w) = [] ∧ counts_grants av w)); [|done|].
      - intros k w w' [_ _ _ Hacc] [Hnil Hcg] Hit.
        pose proof (counts_grants_step randbelow av k w w' Hcg Hit) as Hcg'.
        split; [|done].
        apply iteration_Normal_inv in Hit as (picked & rs1 & _ & Hperm & _ & _ & Hch & Hlog).
        rewrite Hlog, !pruned_app, pruned_removing, Hnil. simpl.
        apply filter_none. intros r Hr Hn. apply Hn, conflicting_false. intros d Hd.
        rewrite Hnil, Hperm in Hacc. simpl in Hacc.
        assert (r ∈ reqs) as Hin.
        { rewrite <- Hacc, elem_of_app, elem_of_cons. auto. }
        specialize (Hcg' d).
        rewrite (create_availability_covers reqs av r d Hc Hin Hd) in Hcg'.
        pose proof (occupancy_Permutation d _ _ Hacc) as Hocc.
        rewrite occupancy_app in Hocc. change (picked :: rs1) with ([picked] ++ rs1) in Hocc.
        rewrite occupancy_app in Hocc. rewrite Hch, occupancy_app in Hcg'.
        pose proof (occupancy_elem_of d r rs1 Hr Hd). specialize (Hfit d). lia.
      - split; [done|]. intros d. simpl. unfold occupancy. simpl. lia. }
    split; [done|].
    destruct (resolve_loop_inv randbelow reqs (dom av) fuel 0 _ Hinv) as [[_ _ _ Hacc] _].
    by rewrite Hnil in Hacc. }
  intros w. split; [apply Hall|]. split; [apply Hall|].
  intros w' (av' & Hc' & -> & Hreq)%main_Finished_inv.
  rewrite Hc in Hc'. injection Hc' as <-.
  destruct (Hall (length reqs)) as [_ Hp]. by rewrite Hreq, app_nil_r in Hp.
Qed.

Lemma all_fit_all_granted_witness :
  let av : gmap Z Z := <[date 2024 1 2 := 2]> (<[date 2024 1 1 := 2]> ∅) in
  let w := (resolve_loop always_first 2 0 (mkWorld [Alice; Carol] av [] [])).1 in
  pruned (log w) = []
  ∧ chosen w ++ requests w ≡ₚ [Alice; Carol]
  ∧ (∀ w', main always_first [Alice; Carol] = Normal (w', Finished) →
       chosen w' ≡ₚ [Alice; Carol]).
Proof.
  intros av. apply (all_fit_all_granted always_first [Alice; Carol] av 2).
  - intros d. pose proof (occupancy_le_length d [Alice; Carol]) as Hle.
    simpl in Hle. unfold ROOMS. lia.
  - by vm_compute.
Defined.

(** X12: a request with an empty span is always granted: when the loop has
    finished, every request whose end is not after its start is in the
    granted sequence, and no such request was ever logged as removed. *)
Theorem empty_span_always_granted (randbelow : nat → nat → nat)
    (reqs : list Reservation) (w : World) (r : Reservation) :
  main randbelow reqs = Normal (w, Finished) →
  r ∈ reqs → end_ r ≤ start r →
  r ∈ chosen w ∧ r ∉ pruned (log w).
Proof.
  intros (av & Hc & -> & Hreq)%main_Finished_inv Hr He.
  destruct (resolve_loop_facts randbelow reqs av (length reqs) Hc)
    as ([_ _ _ Hacc] & _ & Hpb & _).
  assert (r ∉ pruned (log (resolve_loop randbelow (length reqs) 0
                             (mkWorld reqs av [] [])).1)) as Hnp.
  { intros Hp. apply Hpb in Hp. rewrite conflicting_empty_span in Hp; done. }
  split; [|done]. rewrite Hreq, app_nil_r in Hacc.
  rewrite <- Hacc, elem_of_app in Hr. by destruct Hr.
Qed.

Lemma empty_span_always_granted_witness :
  let Dave := mkReservation (date 2024 1 1) (date 2024 1 1) "Dave" in
  ∃ w, main always_first [Xavier; Yara; Zoe; Dave] = Normal (w, Finished)
     ∧ Dave ∈ chosen w ∧ Dave ∉ pruned (log w).
Proof.
  intros Dave. eexists. split; [by vm_compute|].
  apply (empty_span_always_granted always_first [Xavier; Yara; Zoe; Dave]).
  - by vm_compute.
  - do 3 apply list_elem_of_further. apply list_elem_of_here.
  - simpl. lia.
Defined.

(** X13: requests that all ask for the same non-empty span are granted up
    to the number of rooms: when the loop has finished, [min n ROOMS] of the
    [n] requests are granted and the others were removed, whatever the
    draws. *)
Theorem same_span_grants_rooms (randbelow : nat → nat → nat) (reqs : list Reservation)
    (w : World) (s e : Z) :
  (∀ r, r ∈ reqs → start r = s ∧ end_ r = e) → s < e →
  main randbelow reqs = Normal (w, Finished) →
  length (chosen w) = (length reqs `min` Z.to_nat ROOMS)%nat
  ∧ length (pruned (log w)) = (length reqs - Z.to_nat ROOMS)%nat.
Proof.
  intros Hsame Hse (av & Hc & -> & Hreq)%main_Finished_inv.
  destruct (resolve_loop_facts randbelow reqs av (length reqs) Hc)
    as ([Hcap _ _ Hacc] & Hcg & Hpb & _).
  set (w := (resolve_loop randbelow (length reqs) 0 (mkWorld reqs av [] [])).1) in *.
  rewrite Hreq, app_nil_r in Hacc.
  assert (∀ r, r ∈ chosen w ++ pruned (log w) → r ∈ reqs) as Hsub.
  { intros r Hr. by rewrite <- Hacc. }
  assert (∀ d, s ≤ d < e → getitem (availablility w) d = ROOMS - Z.of_nat (length (chosen w)))
    as Hcount.
  { intros d Hd. rewrite (Hcg d). f_equal.
    - destruct reqs as [|x xs]; [done|].
      apply (create_availability_covers _ av x d Hc); [apply list_elem_of_here|].
      destruct (Hsame x) as [Hs He]; [apply list_elem_of_here|]. unfold covers. lia.
    - unfold occupancy. rewrite filter_all; [done|].
      intros r Hr. destruct (Hsame r) as [Hs He].
      { apply Hsub, elem_of_app. by left. }
      unfold covers. lia. }
  pose proof (Hcount s ltac:(lia)) as Hs. pose proof (Hcap s) as Hcs.
  pose proof (Permutation_length Hacc) as Hlen. rewrite length_app in Hlen.
  destruct (pruned (log w)) as [|r rest] eqn:Hpr.
  - simpl in *. unfold ROOMS in *. lia.
  - assert (r ∈ pruned (log w)) as Hr by (rewrite Hpr; apply list_elem_of_here).
    pose proof (Hpb r Hr) as (d & Hd & H0)%conflicting_true.
    destruct (Hsame r) as [Hrs Hre].
    { apply Hsub, elem_of_app. right. by rewrite <- Hpr. }
    rewrite Hcount in H0 by lia. simpl in *. unfold ROOMS in *. lia.
Qed.

Lemma same_span_grants_rooms_witness :
  ∃ w, main always_first [Xavier; Yara; Zoe] = Normal (w, Finished)
     ∧ length (chosen w) = (length [Xavier; Yara; Zoe] `min` Z.to_nat ROOMS)%nat
     ∧ length (pruned (log w)) = (length [Xavier; Yara; Zoe] - Z.to_nat ROOMS)%nat.
Proof.
  eexists. split; [by vm_compute|].
  apply (same_span_grants_rooms always_first [Xavier; Yara; Zoe] _
           (date 2024 1 1) (date 2024 1 2)).
  - intros r Hr. repeat (apply elem_of_cons in Hr as [->|Hr]; [done|]).
    by apply elem_of_nil in Hr.
  - by vm_compute.
  - by vm_compute.
Defined.

(** X14: the first draw is always granted: when the loop has finished, the
    granted sequence starts with the request at the index drawn first. *)
Theorem first_draw_is_granted (randbelow : nat → nat → nat) (reqs : list Reservation)
    (w : World) :
  main randbelow reqs = Normal (w, Finished) →
  head (chosen w) = reqs !! randbelow 0%nat (length reqs)
  ∧ is_Some (head (chosen w)).
Proof.
  unfold main. destruct (create_availability reqs) as [av|e] eqn:Hc; [|done].
  intros [= Hrun]. pose proof (create_availability_inv reqs av Hc) as Hinv.
  destruct reqs as [|x xs] eqn:Hreqs; [done|]. rewrite <- Hreqs in *.
  assert (length reqs = S (length xs)) as Hlen by (by rewrite Hreqs).
  rewrite Hlen in Hrun |- *. simpl in Hrun. rewrite Hreqs in Hrun at 1.
  destruct (iteration randbelow 0 (mkWorld reqs av [] [])) as [w1 c] eqn:Hit.
  destruct (iteration_inv randbelow reqs (dom av) _ _ _ _ Hinv Hit)
    as [Hinv1 [(picked & Hi & -> & Hch & _)|(_ & -> & _)]]; [|done].
  simpl in Hi, Hch. rewrite Hlen in Hi. rewrite Hi.
  assert (head (chosen (resolve_loop randbelow (length xs) 1 w1).1) = Some picked) as Hh.
  { apply (resolve_loop_preserves randbelow reqs (dom av)
             (λ w, head (chosen w) = Some picked)); [|done|by rewrite Hch].
    intros k w0 w' _ Hh (p & rs1 & _ & _ & _ & _ & -> & _)%iteration_Normal_inv.
    by destruct (chosen w0). }
  rewrite Hrun in Hh. simpl in Hh. by rewrite Hh.
Qed.

Lemma first_draw_is_granted_witness :
  ∃ w, main always_first [Alice; Bob; Carol] = Normal (w, Finished)
     ∧ head (chosen w)
       = [Alice; Bob; Carol] !! always_first 0%nat (length [Alice; Bob; Carol])
     ∧ is_Some (head (chosen w)).
Proof.
  eexists. split; [by vm_compute|].
  apply (first_draw_is_granted always_first [Alice; Bob; Carol]). by vm_compute.
Defined.

Lemma log_length (l : list LogRecord) :
  length l = (length (picked_of l) + length (pruned l))%nat.
Proof.
  induction l as [|[r|r] l IH]; [done| |].
  - change (picked_of (LogPicked r :: l)) with (r :: picked_of l).
    change (pruned (LogPicked r :: l)) with (pruned l). simpl. lia.
  - change (picked_of (LogRemoving r :: l)) with (picked_of l).
    change (pruned (LogRemoving r :: l)) with (r :: pruned l). simpl. lia.
Qed.

(** X15: the granted sequence is what the log says: after any number of
    passes it is the sequence of reservations logged as picked, in order, and
    the log holds nothing but those records and the removals. *)
Theorem chosen_matches_log (randbelow : nat → nat → nat) (reqs : list Reservation)
    (av : gmap Z Z) (fuel : nat) :
  create_availability reqs = Normal av →
  let w := (resolve_loop randbelow fuel 0 (mkWorld reqs av [] [])).1 in
  chosen w = picked_of (log w)
  ∧ length (log w) = (length (chosen w) + length (pruned (log w)))%nat.
Proof.
  intros Hc w.
  destruct (resolve_loop_facts randbelow reqs av fuel Hc) as (_ & _ & _ & Hpk).
  fold w in Hpk. split; [done|]. rewrite Hpk. apply log_length.
Qed.

Lemma chosen_matches_log_witness :
  let av : gmap Z Z := <[date 2024 1 1 := 2]> ∅ in
  let w := (resolve_loop always_first 3 0 (mkWorld [Xavier; Yara; Zoe] av [] [])).1 in
  chosen w = picked_of (log w)
  ∧ length (log w) = (length (chosen w) + length (pruned (log w)))%nat.
Proof.
  intros av. apply (chosen_matches_log always_first [Xavier; Yara; Zoe] av 3).
  by vm_compute.
Defined.

(** X16: how [__main__] can end.  It raises before the loop exactly on an
    empty list of requests ([min] of an empty sequence); otherwise the loop
    stops within [length reqs] passes, and the only exception that can escape
    it is the [IndexError] of a draw out of range: neither [list.remove] nor
    [update_availability] ever raises there. With draws in range the loop
    finishes. *)
Theorem main_outcomes (randbelow : nat → nat → nat) (reqs : list Reservation) :
  (∀ e, main randbelow reqs = Raised e ↔ reqs = [] ∧ e = ValueError_empty_sequence)
  ∧ (∀ w st, main randbelow reqs = Normal (w, st) →
       st ≠ OutOfFuel
       ∧ (∀ e, st = Aborted e → e = IndexError_choice)
       ∧ ((∀ k n, (0 < n)%nat → (randbelow k n < n)%nat) → st = Finished)).
Proof.
  split.
  - intros e. unfold main. destruct reqs as [|x xs].
    + simpl. split; [by intros [= <-] | by intros [_ ->]].
    + destruct (create_availability_cons x xs) as (av & -> & _).
      split; [done | by intros [? _]].
  - intros w st. unfold main.
    destruct (create_availability reqs) as [av|e] eqn:Hc; [|done].
    intros [= Hrun]. pose proof (create_availability_inv reqs av Hc) as Hinv.
    destruct (resolve_loop_fuel randbelow reqs (dom av) (length reqs) (length reqs) 0 _ Hinv)
      as (_ & Hof & _); [done..|].
    destruct (resolve_loop_inv randbelow reqs (dom av) (length reqs) 0 _ Hinv) as [_ Hst].
    rewrite Hrun in Hof, Hst. simpl in *. split; [done|]. split.
    + intros e ->. done.
    + intros Hrb. destruct st as [|e|]; [done| |done]. exfalso.
      apply (resolve_loop_not_Aborted randbelow reqs (dom av) Hrb (length reqs) 0 _ e Hinv).
      by rewrite Hrun.
Qed.

(** X17: pruning keeps its promise.  After any number of passes every
    request still pending can be granted next: all days of its span have a
    free room and [update_availability] on it returns normally. *)
Theorem pending_can_be_granted (randbelow : nat → nat → nat) (reqs : list Reservation)
    (av : gmap Z Z) (fuel : nat) (r : Reservation) :
  create_availability reqs = Normal av →
  let w := (resolve_loop randbelow fuel 0 (mkWorld reqs av [] [])).1 in
  r ∈ requests w →
  r ∈ reqs
  ∧ (∀ d, covers d r → 1 ≤ getitem (availablility w) d)
  ∧ (update_availability r (availablility w)).2 = Normal ().
Proof.
  intros Hc w Hr.
  destruct (resolve_loop_facts randbelow reqs av fuel Hc) as ([Hcap Hpool _ Hacc] & _).
  fold w in Hcap, Hpool, Hacc.
  assert (∀ d, covers d r → 1 ≤ getitem (availablility w) d) as Hfree.
  { intros d Hd. specialize (Hpool r Hr). rewrite conflicting_false in Hpool.
    specialize (Hpool d Hd). specialize (Hcap d). lia. }
  split; [|split; [done|]].
  - rewrite <- Hacc, !elem_of_app. auto.
  - by destruct (update_availability_succeeds r (availablility w) Hfree) as [av' ->].
Qed.

Lemma pending_can_be_granted_witness :
  let av : gmap Z Z :=
    <[date 2024 1 3 := 2]> (<[date 2024 1 2 := 2]> (<[date 2024 1 1 := 2]> ∅)) in
  let w := (resolve_loop always_first 2 0 (mkWorld [Alice; Bob; Carol] av [] [])).1 in
  Carol ∈ [Alice; Bob; Carol]
  ∧ (∀ d, covers d Carol → 1 ≤ getitem (availablility w) d)
  ∧ (update_availability Carol (availablility w)).2 = Normal ().
Proof.
  intros av.
  apply (pending_can_be_granted always_first [Alice; Bob; Carol] av 2 Carol).
  - by vm_compute.
  - vm_compute. apply list_elem_of_here.
Defined.

(** X18: a grant only takes rooms, one per day at most: whether
    [update_availability] returns or raises, no count is higher afterwards
    than before nor lower by more than one, and days outside the span of
    the reservation keep their count. *)
Theorem update_availability_only_decrements (r : Reservation) (av : gmap Z Z) (d : Z) :
  getitem av d - 1 ≤ getitem (update_availability r av).1 d ≤ getitem av d
  ∧ (¬ covers d r → (update_availability r av).1 !! d = av !! d).
Proof.
  destruct (update_availability r av) as [av' [[]|ex]] eqn:Hu; simpl.
  - destruct (update_availability_getitem r av av' d Hu) as [-> _].
    apply update_availability_Normal in Hu as (_ & Hframe & _).
    split; [case_decide; lia | apply Hframe].
  - apply update_availability_Raised in Hu as (d0 & Hd0 & _ & _ & Hat & Hpre & Hframe).
    assert (¬ covers d r → av' !! d = av !! d) as Hout.
    { intros Hn. apply Hframe. unfold covers in Hn. lia. }
    split; [|done].
    destruct (decide (start r ≤ d ≤ d0)) as [Hin|Hnin].
    + destruct (decide (d = d0)) as [->|Hne]; [lia|].
      destruct (Hpre d) as [_ ->]; lia.
    + rewrite (getitem_lookup_eq _ _ _ (Hframe d Hnin)). lia.
Qed.
